(** * lw_math: a shallow embedding of the fixed-point and motor-control library

    The development follows [lw_math.h] and [lw_math.c].  Machine integers are
    values of [Z]; every C conversion and every arithmetic result of a given
    width is passed through the corresponding wrap-around function, so that
    the absence of overflow is something the theorems establish instead of
    something the model presupposes. *)

From Stdlib Require Import ZArith Lia List Bool.
Import ListNotations.
Local Open Scope Z_scope.

(** ** Machine integers *)

Module MachineInt.

(** Conversion to an unsigned type of [w] bits: reduction modulo [2^w]. *)
Definition wrap_unsigned (w z : Z) : Z := z mod 2 ^ w.

(** Conversion to a signed two's-complement type of [w] bits. *)
Definition wrap_signed (w z : Z) : Z :=
  (z + 2 ^ (w - 1)) mod 2 ^ w - 2 ^ (w - 1).

Definition uint8 : Z -> Z := wrap_unsigned 8.
Definition uint16 : Z -> Z := wrap_unsigned 16.
Definition uint32 : Z -> Z := wrap_unsigned 32.
Definition int16 : Z -> Z := wrap_signed 16.
Definition int32 : Z -> Z := wrap_signed 32.

Definition in_signed (w z : Z) : Prop := - 2 ^ (w - 1) <= z < 2 ^ (w - 1).
Definition in_unsigned (w z : Z) : Prop := 0 <= z < 2 ^ w.

Definition in_int16 (z : Z) : Prop := -32768 <= z <= 32767.
Definition in_int32 (z : Z) : Prop := -2147483648 <= z <= 2147483647.

Definition INT16_MAX : Z := 32767.

End MachineInt.
Export MachineInt.

(** ** Data types of [lw_math.h] *)

Record trig_components_t : Set := { cos : Z; sin : Z }.
Record ab_t : Set := { a : Z; b : Z }.
Record qd_t : Set := { q : Z; d : Z }.
Record alphabeta_t : Set := { alpha : Z; beta : Z }.

(** A C expression whose evaluation runs into an indeterminate value or an
    out-of-bounds read has no result; such computations live in [option]. *)
Definition bind {A B : Type} (m : option A) (k : A -> option B) : option B :=
  match m with
  | Some x => k x
  | None => None
  end.

Notation "'let*' x ':=' m 'in' k" := (bind m (fun x => k))
  (at level 10, x name, m at level 100, k at level 200).

(** ** The trigonometric evaluator *)

Module Trig.

Definition SIN_COS_TABLE : list Z :=
[
 0x0000; 0x00C9; 0x0192; 0x025B; 0x0324; 0x03ED; 0x04B6; 0x057F;
 0x0648; 0x0711; 0x07D9; 0x08A2; 0x096A; 0x0A33; 0x0AFB; 0x0BC4;
 0x0C8C; 0x0D54; 0x0E1C; 0x0EE3; 0x0FAB; 0x1072; 0x113A; 0x1201;
 0x12C8; 0x138F; 0x1455; 0x151C; 0x15E2; 0x16A8; 0x176E; 0x1833;
 0x18F9; 0x19BE; 0x1A82; 0x1B47; 0x1C0B; 0x1CCF; 0x1D93; 0x1E57;
 0x1F1A; 0x1FDD; 0x209F; 0x2161; 0x2223; 0x22E5; 0x23A6; 0x2467;
 0x2528; 0x25E8; 0x26A8; 0x2767; 0x2826; 0x28E5; 0x29A3; 0x2A61;
 0x2B1F; 0x2BDC; 0x2C99; 0x2D55; 0x2E11; 0x2ECC; 0x2F87; 0x3041;
 0x30FB; 0x31B5; 0x326E; 0x3326; 0x33DF; 0x3496; 0x354D; 0x3604;
 0x36BA; 0x376F; 0x3824; 0x38D9; 0x398C; 0x3A40; 0x3AF2; 0x3BA5;
 0x3C56; 0x3D07; 0x3DB8; 0x3E68; 0x3F17; 0x3FC5; 0x4073; 0x4121;
 0x41CE; 0x427A; 0x4325; 0x43D0; 0x447A; 0x4524; 0x45CD; 0x4675;
 0x471C; 0x47C3; 0x4869; 0x490F; 0x49B4; 0x4A58; 0x4AFB; 0x4B9D;
 0x4C3F; 0x4CE0; 0x4D81; 0x4E20; 0x4EBF; 0x4F5D; 0x4FFB; 0x5097;
 0x5133; 0x51CE; 0x5268; 0x5302; 0x539B; 0x5432; 0x54C9; 0x5560;
 0x55F5; 0x568A; 0x571D; 0x57B0; 0x5842; 0x58D3; 0x5964; 0x59F3;
 0x5A82; 0x5B0F; 0x5B9C; 0x5C28; 0x5CB3; 0x5D3E; 0x5DC7; 0x5E4F;
 0x5ED7; 0x5F5D; 0x5FE3; 0x6068; 0x60EB; 0x616E; 0x61F0; 0x6271;
 0x62F1; 0x6370; 0x63EE; 0x646C; 0x64E8; 0x6563; 0x65DD; 0x6656;
 0x66CF; 0x6746; 0x67BC; 0x6832; 0x68A6; 0x6919; 0x698B; 0x69FD;
 0x6A6D; 0x6ADC; 0x6B4A; 0x6BB7; 0x6C23; 0x6C8E; 0x6CF8; 0x6D61;
 0x6DC9; 0x6E30; 0x6E96; 0x6EFB; 0x6F5E; 0x6FC1; 0x7022; 0x7083;
 0x70E2; 0x7140; 0x719D; 0x71F9; 0x7254; 0x72AE; 0x7307; 0x735E;
 0x73B5; 0x740A; 0x745F; 0x74B2; 0x7504; 0x7555; 0x75A5; 0x75F3;
 0x7641; 0x768D; 0x76D8; 0x7722; 0x776B; 0x77B3; 0x77FA; 0x783F;
 0x7884; 0x78C7; 0x7909; 0x794A; 0x7989; 0x79C8; 0x7A05; 0x7A41;
 0x7A7C; 0x7AB6; 0x7AEE; 0x7B26; 0x7B5C; 0x7B91; 0x7BC5; 0x7BF8;
 0x7C29; 0x7C59; 0x7C88; 0x7CB6; 0x7CE3; 0x7D0E; 0x7D39; 0x7D62;
 0x7D89; 0x7DB0; 0x7DD5; 0x7DFA; 0x7E1D; 0x7E3E; 0x7E5F; 0x7E7E;
 0x7E9C; 0x7EB9; 0x7ED5; 0x7EEF; 0x7F09; 0x7F21; 0x7F37; 0x7F4D;
 0x7F61; 0x7F74; 0x7F86; 0x7F97; 0x7FA6; 0x7FB4; 0x7FC1; 0x7FCD;
 0x7FD8; 0x7FE1; 0x7FE9; 0x7FF0; 0x7FF5; 0x7FF9; 0x7FFD; 0x7FFE ].

Definition SIN_MASK : Z := 0x0300.
Definition U0_90 : Z := 0x0200.
Definition U90_180 : Z := 0x0300.
Definition U180_270 : Z := 0x0000.
Definition U270_360 : Z := 0x0100.

(** [sin_cos_table[i]]: a read of the 256-entry array; reads outside the
    array have no result. *)
Definition sin_cos_table (i : Z) : option Z :=
  if 0 <=? i then nth_error SIN_COS_TABLE (Z.to_nat i) else None.

(** The 10 bit index computation at the head of [lw_math_trig_functions]. *)
Definition trig_index (angle : Z) : Z :=
  let shindex := int32 (int32 32768 + int32 angle) in
  let uhindex := uint16 shindex in
  uint16 (uhindex ÷ uint16 64).

(** The labels of the [switch] statement. *)
Inductive switch_label : Set :=
| case_U0_90
| case_U90_180
| case_U180_270
| case_U270_360
| case_default.

(** [switch ((uint16_t)(uhindex) & SIN_MASK)]: the controlling expression is
    compared with the four case constants in turn. *)
Definition trig_switch (uhindex : Z) : switch_label :=
  let sel := uint32 (Z.land (uint16 uhindex) SIN_MASK) in
  if sel =? U0_90 then case_U0_90
  else if sel =? U90_180 then case_U90_180
  else if sel =? U180_270 then case_U180_270
  else if sel =? U270_360 then case_U270_360
  else case_default.

(** The two table subscripts used by every case. *)
Definition idx_direct (uhindex : Z) : Z := uint8 uhindex.
Definition idx_mirror (uhindex : Z) : Z :=
  uint8 (uint32 (0xFF - uint8 uhindex)).

(** [lw_math_trig_functions].  The [default] case assigns neither field of
    [local_components], so the returned structure is indeterminate there:
    the model has no result in that case. *)
Definition lw_math_trig_functions (angle : Z) : option trig_components_t :=
  let uhindex := trig_index angle in
  match trig_switch uhindex with
  | case_U0_90 =>
      let* s := sin_cos_table (idx_direct uhindex) in
      let* c := sin_cos_table (idx_mirror uhindex) in
      Some {| cos := int16 c; sin := int16 s |}
  | case_U90_180 =>
      let* s := sin_cos_table (idx_mirror uhindex) in
      let* c := sin_cos_table (idx_direct uhindex) in
      Some {| cos := int16 (- c); sin := int16 s |}
  | case_U180_270 =>
      let* s := sin_cos_table (idx_direct uhindex) in
      let* c := sin_cos_table (idx_mirror uhindex) in
      Some {| cos := int16 (- c); sin := int16 (- s) |}
  | case_U270_360 =>
      let* s := sin_cos_table (idx_mirror uhindex) in
      let* c := sin_cos_table (idx_direct uhindex) in
      Some {| cos := int16 c; sin := int16 (- s) |}
  | case_default => None
  end.

End Trig.
Export Trig.

(** ** Checked C operators

    Division by zero, the quotient [INT_MIN / -1] and a shift by a count
    outside [0, width) have no defined result in C. *)

Module COps.

(** Signed division at width [w] (truncation toward zero). *)
Definition sdiv (w x y : Z) : option Z :=
  if y =? 0 then None
  else if (x =? - 2 ^ (w - 1)) && (y =? -1) then None
  else Some (x ÷ y).

(** Left shift of a signed [w]-bit value; bits shifted out are lost. *)
Definition shl (w x n : Z) : option Z :=
  if (0 <=? n) && (n <? w) then Some (wrap_signed w (Z.shiftl x n)) else None.

(** Right shift of a signed [w]-bit value (arithmetic shift). *)
Definition shr (w x n : Z) : option Z :=
  if (0 <=? n) && (n <? w) then Some (Z.shiftr x n) else None.

End COps.
Export COps.

(** ** The integer square root *)

Module Sqrt.

(** The variables that live across iterations of the [do ... while]. *)
Record loop_state : Set := { biter : Z; wtemproot : Z }.

(** One execution of the loop body; the second component is the value
    just assigned to [wtemprootnew]. *)
Definition loop_body (input : Z) (s : loop_state) : option (loop_state * Z) :=
  let* quo := sdiv 32 input (wtemproot s) in
  let wtemprootnew := int32 (int32 (wtemproot s + int32 quo) ÷ int32 2) in
  if wtemprootnew =? wtemproot s
  then Some ({| biter := uint8 6; wtemproot := wtemproot s |}, wtemprootnew)
  else Some ({| biter := uint8 (biter s + 1); wtemproot := wtemprootnew |},
             wtemprootnew).

(** [do { body } while (biter < 6u)], with a bound on the number of
    executions of the body. *)
Fixpoint do_while (fuel : nat) (input : Z) (s : loop_state) : option Z :=
  match fuel with
  | O => None
  | S fuel' =>
      let* r := loop_body input s in
      if biter (fst r) <? 6 then do_while fuel' input (fst r)
      else Some (snd r)
  end.

Definition lw_math_sqrt (fuel : nat) (input : Z) : option Z :=
  if input >? 0 then
    let wtemproot0 :=
      if input <=? int32 2097152 then int32 128 else int32 8192 in
    do_while fuel input {| biter := uint8 0; wtemproot := wtemproot0 |}
  else Some (int32 0).

(** The algorithm in the words of the specification, over unbounded
    integers: [next = (guess + input/guess) / 2], stopping when
    [next == guess] or after [n] iterations. *)
Definition newton_next (input guess : Z) : Z := (guess + input ÷ guess) ÷ 2.

Fixpoint newton_iterate (n : nat) (input guess : Z) : Z :=
  match n with
  | O => guess
  | S n' =>
      let next := newton_next input guess in
      if next =? guess then next else newton_iterate n' input next
  end.

Definition newton_seed (input : Z) : Z :=
  if input <=? 2097152 then 128 else 8192.

Definition sqrt_spec (input : Z) : Z :=
  if input <=? 0 then 0 else newton_iterate 6 input (newton_seed input).

(** [g] is at least the integer square root of [x]. *)
Definition above_root (x g : Z) : Prop := x < (g + 1) * (g + 1).

(** Guesses for which the 32-bit arithmetic of the loop body is exact:
    small inputs keep the guess in [1, 2^21], large ones in [2^10, 2^22]. *)
Definition guess_in_range (input g : Z) : Prop :=
  (input <= 2097152 /\ 1 <= g <= 2097152) \/
  (2097152 < input /\ 1024 <= g <= 4194304).

End Sqrt.
Export Sqrt.

(** ** Clarke, Park and reverse Park transforms *)

Module Transforms.

Definition divSQRT_3 : Z := int32 0x49E6.

(** The saturation block that follows each 32-bit quotient in
    [lw_math_clarke] and [lw_math_park]:
    [if (w > INT16_MAX) h = INT16_MAX; else if (w < (-32768))
     h = (int16_t)-32768; else h = (int16_t)w;] *)
Definition saturate_s16 (w : Z) : Z :=
  if w >? INT16_MAX then INT16_MAX
  else if w <? -32768 then int16 (-32768)
  else int16 w.

(** [if (((int16_t)-32768) == out) out = -32767;] *)
Definition avoid_int16_min (out : Z) : Z :=
  if int16 (-32768) =? out then int16 (-32767) else out.

Definition lw_math_clarke (input : ab_t) : alphabeta_t :=
  let output_alpha := a input in
  let a_divSQRT3_tmp := int32 (divSQRT_3 * int32 (a input)) in
  let b_divSQRT3_tmp := int32 (divSQRT_3 * int32 (b input)) in
  let wbeta_tmp :=
    int32 (int32 (int32 (int32 (- a_divSQRT3_tmp) - b_divSQRT3_tmp)
                  - b_divSQRT3_tmp) ÷ 32768) in
  let hbeta_tmp := saturate_s16 wbeta_tmp in
  {| alpha := output_alpha; beta := avoid_int16_min hbeta_tmp |}.

Definition lw_math_park (input : alphabeta_t) (theta : Z) : option qd_t :=
  let* Local_Vector_Components := lw_math_trig_functions theta in
  let q_tmp_1 := int32 (alpha input * int32 (cos Local_Vector_Components)) in
  let q_tmp_2 := int32 (beta input * int32 (sin Local_Vector_Components)) in
  let wqd_tmp := int32 (int32 (q_tmp_1 - q_tmp_2) ÷ 32768) in
  let output_q := avoid_int16_min (saturate_s16 wqd_tmp) in
  let d_tmp_1 := int32 (alpha input * int32 (sin Local_Vector_Components)) in
  let d_tmp_2 := int32 (beta input * int32 (cos Local_Vector_Components)) in
  let wqd_tmp := int32 (int32 (d_tmp_1 + d_tmp_2) ÷ 32768) in
  let output_d := avoid_int16_min (saturate_s16 wqd_tmp) in
  Some {| q := output_q; d := output_d |}.

Definition lw_math_rev_park (input : qd_t) (theta : Z) : option alphabeta_t :=
  let* Local_Vector_Components := lw_math_trig_functions theta in
  let alpha_tmp1 := int32 (q input * int32 (cos Local_Vector_Components)) in
  let alpha_tmp2 := int32 (d input * int32 (sin Local_Vector_Components)) in
  let output_alpha := int16 (int32 (int32 (alpha_tmp1 + alpha_tmp2) ÷ 32768)) in
  let beta_tmp1 := int32 (q input * int32 (sin Local_Vector_Components)) in
  let beta_tmp2 := int32 (d input * int32 (cos Local_Vector_Components)) in
  let output_beta := int16 (int32 (int32 (beta_tmp2 - beta_tmp1) ÷ 32768)) in
  Some {| alpha := output_alpha; beta := output_beta |}.

(** Mathematical saturation to the signed 16-bit range, and the nudge away
    from the minimum, as the specification words them. *)
Definition clamp_s16 (z : Z) : Z := Z.max (-32768) (Z.min 32767 z).
Definition nudge_min (z : Z) : Z := if z =? -32768 then -32767 else z.
Definition saturate_nudge (z : Z) : Z := nudge_min (clamp_s16 z).

End Transforms.
Export Transforms.

(** ** Fixed-point operators *)

Module FixOps.

(** The macros of [lw_math.h] at operands of type [fix_t] and formats of
    type [int]. *)
Definition FCONV (x q1 q2 : Z) : option Z :=
  if q2 >? q1 then shl 32 x (int32 (q2 - q1)) else shr 32 x (int32 (q1 - q2)).

Definition FDIVG (x y q1 q2 q3 : Z) : option Z :=
  let* n := FCONV x q1 (int32 (q2 + q3)) in
  sdiv 32 n y.

(** The cross-format divide as the specification words it: both operands
    converted to [q3], then the plain division. *)
Definition FDIVG_normalised (x y q1 q2 q3 : Z) : option Z :=
  let* n := FCONV x q1 q3 in
  let* m := FCONV y q2 q3 in
  sdiv 32 n m.

Section LongWidth.

(** The width of C's [long] is fixed by the target's data model: 32 bits
    under ILP32 (the Cortex-M3 named in the source), 64 under LP64. *)
Variable long_bits : Z.

Definition long (z : Z) : Z := wrap_signed long_bits z.

(** [1L << q], with [q] of type [uint32_t]. *)
Definition one_shl (qf : Z) : option Z := shl long_bits (long 1) (uint32 qf).

Definition lw_math_fix_2_int (f qf : Z) : option Z :=
  let* p := one_shl qf in
  if f >=? 0 then
    let* r := sdiv long_bits (long f) p in
    Some (int32 r)
  else
    let* r := sdiv long_bits (long (long (long f - p) + long 1)) p in
    Some (int32 r).

Definition lw_math_fix_fract_part (f qf : Z) : option Z :=
  let* p := one_shl qf in
  Some (int32 (Z.land (long f) (long (p - long 1)))).

End LongWidth.

Definition ILP32 : Z := 32.
Definition LP64 : Z := 64.

End FixOps.
Export FixOps.

(** ** The remaining operators of [lw_math.h] *)

Module FixMacros.

Definition int64 : Z -> Z := wrap_signed 64.

Definition in_int64 (z : Z) : Prop :=
  -9223372036854775808 <= z <= 9223372036854775807.

(** [INT2FIX(d, q)] and [FIX2INT(d, q)], at an [int] or [fix_t] operand. *)
Definition INT2FIX (dv qf : Z) : option Z :=
  let* r := shl 32 dv qf in Some (int32 r).

Definition FIX2INT (dv qf : Z) : option Z :=
  let* r := shr 32 dv qf in Some (int32 r).

Definition FADD (x y : Z) : Z := int32 (x + y).
Definition FSUB (x y : Z) : Z := int32 (x - y).

(** [FMUL(a,b,q)]: the product and the shift are carried out on [int64_t]. *)
Definition FMUL (x y qf : Z) : option Z :=
  let* r := shr 64 (int64 (int64 x * int64 y)) qf in Some (int32 r).

(** [FDIV(a,b,q)]: the dividend is shifted as an [int64_t]. *)
Definition FDIV (x y qf : Z) : option Z :=
  let* n := shl 64 (int64 x) qf in
  let* r := sdiv 64 n (int64 y) in
  Some (int32 r).

Definition FADDI (x y qf : Z) : option Z :=
  let* s := shl 32 y qf in Some (int32 (x + s)).

Definition FSUBI (x y qf : Z) : option Z :=
  let* s := shl 32 y qf in Some (int32 (x - s)).

Definition FMULI (x y : Z) : Z := int32 (x * y).
Definition FDIVI (x y : Z) : option Z := sdiv 32 x y.

Definition FADDG (x y q1 q2 q3 : Z) : option Z :=
  let* u := FCONV x q1 q3 in
  let* v := FCONV y q2 q3 in
  Some (int32 (u + v)).

Definition FSUBG (x y q1 q2 q3 : Z) : option Z :=
  let* u := FCONV x q1 q3 in
  let* v := FCONV y q2 q3 in
  Some (int32 (u - v)).

(** [FMULG(a,b,q1,q2,q3)]: the product is formed at the operands' own
    width, 32 bits. *)
Definition FMULG (x y q1 q2 q3 : Z) : option Z :=
  FCONV (int32 (x * y)) (int32 (q1 + q2)) q3.

(** [FSQRT(a, q)]. *)
Definition FSQRT (fuel : nat) (x qf : Z) : option Z :=
  let* s := shl 32 x qf in lw_math_sqrt fuel s.

Section RoundLongWidth.

Variable long_bits : Z.

(** [lw_math_fix_2_int_round]: the sum is formed in [long] and converted
    to [fix_t] at the call. *)
Definition lw_math_fix_2_int_round (f qf : Z) : option Z :=
  let* p := one_shl long_bits qf in
  let* h := sdiv long_bits p (long long_bits 2) in
  lw_math_fix_2_int long_bits
    (int32 (long long_bits (long long_bits f + h))) qf.

End RoundLongWidth.

End FixMacros.
Export FixMacros.

(** ** Auxiliary definitions for the evaluator and the transforms *)

Module TrigAux.

(** The part of [lw_math_trig_functions] that follows the index
    computation, as a function of [uhindex]. *)
Definition trig_at_index (uhindex : Z) : option trig_components_t :=
  match trig_switch uhindex with
  | case_U0_90 =>
      let* s := sin_cos_table (idx_direct uhindex) in
      let* c := sin_cos_table (idx_mirror uhindex) in
      Some {| cos := int16 c; sin := int16 s |}
  | case_U90_180 =>
      let* s := sin_cos_table (idx_mirror uhindex) in
      let* c := sin_cos_table (idx_direct uhindex) in
      Some {| cos := int16 (- c); sin := int16 s |}
  | case_U180_270 =>
      let* s := sin_cos_table (idx_direct uhindex) in
      let* c := sin_cos_table (idx_mirror uhindex) in
      Some {| cos := int16 (- c); sin := int16 (- s) |}
  | case_U270_360 =>
      let* s := sin_cos_table (idx_mirror uhindex) in
      let* c := sin_cos_table (idx_direct uhindex) in
      Some {| cos := int16 c; sin := int16 (- s) |}
  | case_default => None
  end.

(** Decidable checks on a trigonometric result, for use over all indices. *)
Definition trig_eqb (x y : option trig_components_t) : bool :=
  match x, y with
  | Some u, Some v => (cos u =? cos v) && (sin u =? sin v)
  | _, _ => false
  end.

Definition trig_map (f : trig_components_t -> trig_components_t)
    (x : option trig_components_t) : option trig_components_t :=
  match x with
  | Some u => Some (f u)
  | None => None
  end.

(** The results a quarter turn, a half turn and a reflection away. *)
Definition quarter_turn (tc : trig_components_t) : trig_components_t :=
  {| cos := - sin tc; sin := cos tc |}.

Definition half_turn (tc : trig_components_t) : trig_components_t :=
  {| cos := - cos tc; sin := - sin tc |}.

Definition reflect (tc : trig_components_t) : trig_components_t :=
  {| cos := cos tc; sin := - sin tc |}.

(** Squared length of the (cos, sin) vector. *)
Definition norm2 (tc : trig_components_t) : Z :=
  cos tc * cos tc + sin tc * sin tc.

(** The [n] consecutive integers from [start], and those from 0. *)
Fixpoint Z_from (start : Z) (n : nat) : list Z :=
  match n with
  | O => []
  | S k => start :: Z_from (start + 1) k
  end.

Definition Z_below (n : Z) : list Z := Z_from 0 (Z.to_nat n).

(** Sine and cosine as functions of the index. *)
Definition sin_at (uhindex : Z) : Z :=
  match trig_at_index uhindex with
  | Some tc => sin tc
  | None => 0
  end.

Definition cos_at (uhindex : Z) : Z :=
  match trig_at_index uhindex with
  | Some tc => cos tc
  | None => 0
  end.

(** Squared length of a two-component vector. *)
Definition len2 (x y : Z) : Z := x * x + y * y.

End TrigAux.
Export TrigAux.

(** ** Facts about the conversions *)

Section Conversions.

Lemma wrap_signed_small (w z : Z) :
  0 < w -> in_signed w z -> wrap_signed w z = z.
Proof.
  unfold in_signed, wrap_signed. intros Hw Hz.
  assert (Hp : 2 ^ w = 2 * 2 ^ (w - 1)).
  { replace w with (Z.succ (w - 1)) at 1 by lia. apply Z.pow_succ_r. lia. }
  rewrite Z.mod_small; lia.
Qed.

Lemma wrap_unsigned_small (w z : Z) :
  in_unsigned w z -> wrap_unsigned w z = z.
Proof. unfold in_unsigned, wrap_unsigned. intros Hz. now apply Z.mod_small. Qed.

Lemma wrap_unsigned_range (w z : Z) :
  0 <= w -> in_unsigned w (wrap_unsigned w z).
Proof.
  intros Hw. unfold in_unsigned, wrap_unsigned.
  apply Z.mod_pos_bound, Z.pow_pos_nonneg; lia.
Qed.

Lemma int16_small z : in_int16 z -> int16 z = z.
Proof.
  intros Hz. apply wrap_signed_small; [lia|].
  unfold in_signed, in_int16 in *. simpl. lia.
Qed.

Lemma int32_small z : in_int32 z -> int32 z = z.
Proof.
  intros Hz. apply wrap_signed_small; [lia|].
  unfold in_signed, in_int32 in *. simpl. lia.
Qed.

Lemma uint8_small z : 0 <= z <= 255 -> uint8 z = z.
Proof. intros Hz. apply wrap_unsigned_small. unfold in_unsigned. simpl. lia. Qed.

Lemma uint16_small z : 0 <= z <= 65535 -> uint16 z = z.
Proof. intros Hz. apply wrap_unsigned_small. unfold in_unsigned. simpl. lia. Qed.

Lemma uint32_small z : 0 <= z <= 4294967295 -> uint32 z = z.
Proof. intros Hz. apply wrap_unsigned_small. unfold in_unsigned. simpl. lia. Qed.

Lemma uint8_range z : 0 <= uint8 z <= 255.
Proof.
  pose proof (wrap_unsigned_range 8 z ltac:(lia)) as H.
  unfold in_unsigned in H. simpl in H. unfold uint8. lia.
Qed.

Lemma in_int16_int32 z : in_int16 z -> in_int32 z.
Proof. unfold in_int16, in_int32. lia. Qed.

End Conversions.

(** Strip conversions that are applied to a value already in range. *)
Ltac range_side := unfold in_int32, in_int16 in *; lia.

Ltac unwrap :=
  repeat match goal with
    | |- context [int32 ?z] => rewrite (int32_small z) by range_side
    | |- context [int16 ?z] => rewrite (int16_small z) by range_side
    | |- context [uint16 ?z] => rewrite (uint16_small z) by range_side
    | |- context [uint8 ?z] => rewrite (uint8_small z) by range_side
    | |- context [uint32 ?z] => rewrite (uint32_small z) by range_side
    end.

(** ** Properties of the trigonometric evaluator *)

Section TrigFacts.

Lemma SIN_COS_TABLE_length : length SIN_COS_TABLE = 256%nat.
Proof. reflexivity. Qed.

Lemma SIN_COS_TABLE_bounded :
  Forall (fun e => 0 <= e <= 0x7FFE) SIN_COS_TABLE.
Proof.
  apply Forall_forall. intros e He.
  assert (Hb : forallb (fun e => (0 <=? e) && (e <=? 0x7FFE)) SIN_COS_TABLE = true)
    by (vm_compute; reflexivity).
  rewrite forallb_forall in Hb. specialize (Hb e He).
  apply andb_true_iff in Hb. destruct Hb as [H0 H1].
  apply Z.leb_le in H0, H1. lia.
Qed.

Lemma sin_cos_table_in_bounds (i : Z) :
  0 <= i <= 255 ->
  exists e, sin_cos_table i = Some e /\ In e SIN_COS_TABLE /\ 0 <= e <= 0x7FFE.
Proof.
  intros Hi. unfold sin_cos_table.
  destruct (0 <=? i) eqn:E; [|apply Z.leb_gt in E; lia].
  destruct (nth_error SIN_COS_TABLE (Z.to_nat i)) as [e|] eqn:Hn.
  - exists e. apply nth_error_In in Hn. repeat split; trivial;
      apply (proj1 (Forall_forall _ _) SIN_COS_TABLE_bounded e Hn).
  - apply nth_error_None in Hn. rewrite SIN_COS_TABLE_length in Hn. lia.
Qed.

Lemma trig_index_div (angle : Z) :
  in_int16 angle -> trig_index angle = (angle + 32768) / 64.
Proof.
  intros Ha. unfold trig_index. unfold in_int16 in Ha.
  unwrap. rewrite Z.quot_div_nonneg by lia.
  rewrite uint16_small; [f_equal; lia|].
  assert (0 <= (32768 + angle) / 64 < 1024)
    by (split; [apply Z.div_pos | apply Z.div_lt_upper_bound]; lia).
  lia.
Qed.

Lemma trig_index_range (angle : Z) :
  in_int16 angle -> 0 <= trig_index angle < 1024.
Proof.
  intros Ha. rewrite trig_index_div by trivial. unfold in_int16 in Ha.
  split; [apply Z.div_pos | apply Z.div_lt_upper_bound]; lia.
Qed.

(** The mask keeps bits 8 and 9: the quadrant number, scaled by 256. *)
Lemma land_SIN_MASK (u : Z) :
  Z.land u SIN_MASK = Z.shiftl (Z.land (Z.shiftr u 8) (Z.ones 2)) 8.
Proof.
  change SIN_MASK with (Z.shiftl (Z.ones 2) 8).
  apply Z.bits_inj'. intros n Hn.
  rewrite Z.land_spec, !Z.shiftl_spec, Z.land_spec by trivial.
  destruct (Z.ltb_spec n 8) as [Hlt|Hge].
  - rewrite !(Z.testbit_neg_r _ (n - 8)) by lia. apply andb_false_r.
  - rewrite Z.shiftr_spec by lia. do 2 f_equal. lia.
Qed.

Lemma land_SIN_MASK_quadrant (u : Z) :
  0 <= u < 1024 -> Z.land u SIN_MASK = 256 * (u / 256) /\ 0 <= u / 256 <= 3.
Proof.
  intros Hu. rewrite land_SIN_MASK.
  rewrite Z.shiftl_mul_pow2, Z.land_ones, Z.shiftr_div_pow2 by lia.
  change (2 ^ 8) with 256. change (2 ^ 2) with 4.
  assert (0 <= u / 256 < 4)
    by (split; [apply Z.div_pos | apply Z.div_lt_upper_bound]; lia).
  rewrite Z.mod_small by lia. lia.
Qed.

Lemma trig_switch_selector (u : Z) :
  0 <= u < 1024 ->
  let sel := uint32 (Z.land (uint16 u) SIN_MASK) in
  (sel = U0_90 /\ trig_switch u = case_U0_90) \/
  (sel = U90_180 /\ trig_switch u = case_U90_180) \/
  (sel = U180_270 /\ trig_switch u = case_U180_270) \/
  (sel = U270_360 /\ trig_switch u = case_U270_360).
Proof.
  intros Hu. unfold trig_switch. cbv zeta.
  rewrite (uint16_small u) by lia.
  destruct (land_SIN_MASK_quadrant u Hu) as [-> Hq].
  rewrite uint32_small by lia.
  unfold U0_90, U90_180, U180_270, U270_360.
  assert (Hc : u / 256 = 0 \/ u / 256 = 1 \/ u / 256 = 2 \/ u / 256 = 3) by lia.
  destruct Hc as [-> | [-> | [-> | ->]]]; simpl; tauto.
Qed.

Lemma idx_direct_range (u : Z) : 0 <= idx_direct u <= 255.
Proof. apply uint8_range. Qed.

Lemma idx_mirror_range (u : Z) : 0 <= idx_mirror u <= 255.
Proof. apply uint8_range. Qed.

Lemma idx_mirror_eq (u : Z) : idx_mirror u = 255 - idx_direct u.
Proof.
  unfold idx_mirror, idx_direct. pose proof (uint8_range u).
  change 0xFF with 255. unwrap. reflexivity.
Qed.

End TrigFacts.

(** The evaluator returns for every angle, and each field is a table entry
    or the negation of one. *)
Lemma lw_math_trig_functions_shape (angle : Z) :
  in_int16 angle ->
  exists tc es ec,
    lw_math_trig_functions angle = Some tc /\
    (In es SIN_COS_TABLE /\ 0 <= es <= 0x7FFE) /\
    (In ec SIN_COS_TABLE /\ 0 <= ec <= 0x7FFE) /\
    (sin tc = es \/ sin tc = - es) /\
    (cos tc = ec \/ cos tc = - ec).
Proof.
  intros Ha.
  pose proof (trig_index_range angle Ha) as Hu.
  destruct (sin_cos_table_in_bounds _ (idx_direct_range (trig_index angle)))
    as (e1 & He1 & Hin1 & Hb1).
  destruct (sin_cos_table_in_bounds _ (idx_mirror_range (trig_index angle)))
    as (e2 & He2 & Hin2 & Hb2).
  change 0x7FFE with 32766 in *.
  unfold lw_math_trig_functions.
  destruct (trig_switch_selector _ Hu) as [[_ ->] | [[_ ->] | [[_ ->] | [_ ->]]]];
    rewrite He1, He2; cbn [bind]; unwrap.
  - exists {| cos := e2; sin := e1 |}, e1, e2. cbn. auto 10.
  - exists {| cos := - e1; sin := e2 |}, e2, e1. cbn. auto 10.
  - exists {| cos := - e2; sin := - e1 |}, e1, e2. cbn. auto 10.
  - exists {| cos := e1; sin := - e2 |}, e2, e1. cbn. auto 10.
Qed.

Lemma lw_math_trig_functions_bounded (angle : Z) :
  in_int16 angle ->
  exists tc,
    lw_math_trig_functions angle = Some tc /\
    -32766 <= cos tc <= 32766 /\ -32766 <= sin tc <= 32766.
Proof.
  intros Ha.
  destruct (lw_math_trig_functions_shape angle Ha)
    as (tc & es & ec & Htc & [_ Hs] & [_ Hc] & Hsin & Hcos).
  change 0x7FFE with 32766 in *.
  exists tc. repeat split; trivial; lia.
Qed.

(** ** Claims about the trigonometric evaluator *)

(** C4: for every 16-bit angle both fields of [lw_math_trig_functions] lie in
    [-32766, 32766]: every table entry is at most 0x7FFE, each output is a
    table entry or its negation, and -32768 is never produced. *)
Theorem trig_amplitude_range (angle : Z) :
  in_int16 angle ->
  Forall (fun e => e <= 0x7FFE) SIN_COS_TABLE /\
  exists tc,
    lw_math_trig_functions angle = Some tc /\
    (-32766 <= cos tc <= 32766) /\
    (-32766 <= sin tc <= 32766) /\
    cos tc <> -32768 /\ sin tc <> -32768 /\
    (exists e, In e SIN_COS_TABLE /\ (cos tc = e \/ cos tc = - e)) /\
    (exists e, In e SIN_COS_TABLE /\ (sin tc = e \/ sin tc = - e)).
Proof.
  intros Ha. split.
  - eapply Forall_impl; [|apply SIN_COS_TABLE_bounded]. cbn beta. intros; lia.
  - destruct (lw_math_trig_functions_shape angle Ha)
      as (tc & es & ec & Htc & [Hins Hs] & [Hinc Hc] & Hsin & Hcos).
    change 0x7FFE with 32766 in *.
    exists tc. split; [exact Htc|].
    repeat split; try lia; eauto.
Qed.

Lemma trig_amplitude_range_witness :
  in_int16 8192 /\
  exists tc,
    lw_math_trig_functions 8192 = Some tc /\
    (-32766 <= cos tc <= 32766) /\ (-32766 <= sin tc <= 32766).
Proof.
  assert (H : in_int16 8192) by (unfold in_int16; lia).
  split; [exact H|].
  destruct (trig_amplitude_range 8192 H) as (_ & tc & Htc & Hc & Hs & _).
  exists tc. auto.
Defined.

(** C5: at the canonical angles the evaluator returns: at 0, the maximum
    amplitude 0x7FFE for the cosine and 0 for the sine; at 16384 (90 degrees),
    cosine 0 and sine 32766; at -32768 and at 32767 (180 degrees), the
    minimum amplitude -32766 for the cosine and 0 for the sine. *)
Theorem trig_canonical_angles :
  lw_math_trig_functions 0 = Some {| cos := 0x7FFE; sin := 0 |} /\
  lw_math_trig_functions 16384 = Some {| cos := 0; sin := 32766 |} /\
  lw_math_trig_functions (-32768) = Some {| cos := -32766; sin := 0 |} /\
  lw_math_trig_functions 32767 = Some {| cos := -32766; sin := 0 |}.
Proof. repeat split; vm_compute; reflexivity. Qed.

(** C6: for every 16-bit angle the 10 bit index is
    [(uint16_t)(32768 + angle) / 64]; masked with 0x0300 it is one of the
    four case constants, so the [default] label is never selected, both
    table subscripts are in [0, 255] and read an entry, and the function
    returns. *)
Theorem trig_switch_total (angle : Z) :
  in_int16 angle ->
  let uhindex := trig_index angle in
  let sel := uint32 (Z.land (uint16 uhindex) SIN_MASK) in
  uhindex = uint16 (32768 + angle) / 64 /\
  0 <= uhindex < 1024 /\
  In sel [U0_90; U90_180; U180_270; U270_360] /\
  trig_switch uhindex <> case_default /\
  (0 <= idx_direct uhindex <= 255 /\
   exists e, sin_cos_table (idx_direct uhindex) = Some e) /\
  (0 <= idx_mirror uhindex <= 255 /\
   exists e, sin_cos_table (idx_mirror uhindex) = Some e) /\
  exists tc, lw_math_trig_functions angle = Some tc.
Proof.
  intros Ha uhindex sel.
  pose proof (trig_index_range angle Ha) as Hu. fold uhindex in Hu.
  split.
  { unfold uhindex. rewrite trig_index_div by trivial.
    unfold in_int16 in Ha. unwrap. f_equal. lia. }
  split; [exact Hu|].
  split.
  { destruct (trig_switch_selector _ Hu) as [[H _] | [[H _] | [[H _] | [H _]]]];
      fold sel in H; rewrite H; cbn; auto. }
  split.
  { destruct (trig_switch_selector _ Hu) as [[_ H] | [[_ H] | [[_ H] | [_ H]]]];
      rewrite H; discriminate. }
  split.
  { split; [apply idx_direct_range|].
    destruct (sin_cos_table_in_bounds _ (idx_direct_range uhindex)) as (e & He & _).
    eauto. }
  split.
  { split; [apply idx_mirror_range|].
    destruct (sin_cos_table_in_bounds _ (idx_mirror_range uhindex)) as (e & He & _).
    eauto. }
  destruct (lw_math_trig_functions_shape angle Ha) as (tc & _ & _ & Htc & _).
  eauto.
Qed.

Lemma trig_switch_total_witness :
  in_int16 (-1) /\
  trig_index (-1) = 511 /\
  trig_switch (trig_index (-1)) <> case_default /\
  exists tc, lw_math_trig_functions (-1) = Some tc.
Proof.
  assert (H : in_int16 (-1)) by (unfold in_int16; lia).
  split; [exact H|].
  destruct (trig_switch_total (-1) H) as (_ & _ & _ & Hd & _ & _ & Ht).
  split; [vm_compute; reflexivity|]. split; [exact Hd | exact Ht].
Defined.

(** ** The saturation block *)

Section Saturation.

Lemma saturate_nudge_eq (w : Z) :
  avoid_int16_min (saturate_s16 w) = saturate_nudge w.
Proof.
  unfold avoid_int16_min, saturate_s16, saturate_nudge, nudge_min, clamp_s16,
    INT16_MAX.
  rewrite Z.gtb_ltb.
  destruct (Z.ltb_spec 32767 w) as [Hhi|Hhi].
  - replace (Z.max (-32768) (Z.min 32767 w)) with 32767 by lia. reflexivity.
  - destruct (Z.ltb_spec w (-32768)) as [Hlo|Hlo].
    + replace (Z.max (-32768) (Z.min 32767 w)) with (-32768) by lia.
      reflexivity.
    + replace (Z.max (-32768) (Z.min 32767 w)) with w by lia.
      unwrap. rewrite Z.eqb_sym. reflexivity.
Qed.

Lemma saturate_nudge_range (w : Z) : -32767 <= saturate_nudge w <= 32767.
Proof.
  unfold saturate_nudge, nudge_min, clamp_s16.
  destruct (Z.eqb_spec (Z.max (-32768) (Z.min 32767 w)) (-32768)); lia.
Qed.

(** A product of a 16-bit value and an amplitude fits 31 bits with room
    for one more such product. *)
Lemma amplitude_product_bound (x c : Z) :
  in_int16 x -> -32766 <= c <= 32766 ->
  -1073676288 <= x * c <= 1073676288.
Proof. unfold in_int16. intros Hx Hc. nia. Qed.

Lemma quot_32768_int32 (z : Z) : in_int32 z -> in_int32 (z ÷ 32768).
Proof.
  unfold in_int32. intros Hz.
  Z.to_euclidean_division_equations. lia.
Qed.

End Saturation.

(** ** Claims about the transforms *)

(** C1: for every input (a, b), [lw_math_clarke] returns alpha equal to a,
    and beta equal to -(0x49E6*a + 2*0x49E6*b) divided by 32768 (C's
    truncating division), clamped to the signed 16-bit range and nudged from
    -32768 to -32767; beta is never -32768. *)
Theorem clarke_alpha_beta (va vb : Z) :
  in_int16 va -> in_int16 vb ->
  let out := lw_math_clarke {| a := va; b := vb |} in
  alpha out = va /\
  beta out = saturate_nudge ((- (0x49E6 * va + 2 * 0x49E6 * vb)) ÷ 32768) /\
  -32767 <= beta out <= 32767 /\
  beta out <> -32768.
Proof.
  intros Ha Hb out.
  assert (Hbeta : beta out =
            saturate_nudge ((- (0x49E6 * va + 2 * 0x49E6 * vb)) ÷ 32768)).
  { unfold out, lw_math_clarke, divSQRT_3. cbn [a b alpha beta].
    rewrite saturate_nudge_eq.
    unfold in_int16 in Ha, Hb.
    unwrap.
    rewrite (int32_small (_ ÷ _)) by (apply quot_32768_int32; range_side).
    do 2 f_equal. lia. }
  split; [reflexivity|]. split; [exact Hbeta|].
  rewrite Hbeta.
  pose proof (saturate_nudge_range ((- (0x49E6 * va + 2 * 0x49E6 * vb)) ÷ 32768)).
  lia.
Qed.

Lemma clarke_alpha_beta_witness :
  in_int16 32767 /\ in_int16 32767 /\
  alpha (lw_math_clarke {| a := 32767; b := 32767 |}) = 32767 /\
  beta (lw_math_clarke {| a := 32767; b := 32767 |}) <> -32768.
Proof.
  assert (H : in_int16 32767) by (unfold in_int16; lia).
  destruct (clarke_alpha_beta 32767 32767 H H) as (Halpha & _ & _ & Hne).
  split; [exact H|]. split; [exact H|]. split; [exact Halpha | exact Hne].
Defined.

(** The rescaling is C's division, which truncates toward zero; on a
    negative dividend it differs from the arithmetic shift that the source
    keeps in a comment. *)
Remark clarke_rescale_truncates :
  lw_math_clarke {| a := 32767; b := 0 |} = {| alpha := 32767; beta := -18917 |} /\
  Z.shiftr (- (0x49E6 * 32767)) 15 = -18918.
Proof. split; vm_compute; reflexivity. Qed.

(** C2: for every input (alpha, beta) and every 16-bit angle theta,
    [lw_math_park] returns q = (alpha*cos - beta*sin) / 32768 and
    d = (alpha*sin + beta*cos) / 32768 with (cos, sin) the result of
    [lw_math_trig_functions] at theta; the 32-bit intermediates do not
    overflow, each quotient is saturated to the signed 16-bit range and
    nudged from -32768 to -32767, so neither component is ever -32768. *)
Theorem park_q_d (valpha vbeta theta : Z) :
  in_int16 valpha -> in_int16 vbeta -> in_int16 theta ->
  exists tc out,
    lw_math_trig_functions theta = Some tc /\
    lw_math_park {| alpha := valpha; beta := vbeta |} theta = Some out /\
    in_int32 (valpha * cos tc - vbeta * sin tc) /\
    in_int32 (valpha * sin tc + vbeta * cos tc) /\
    q out = saturate_nudge ((valpha * cos tc - vbeta * sin tc) ÷ 32768) /\
    d out = saturate_nudge ((valpha * sin tc + vbeta * cos tc) ÷ 32768) /\
    q out <> -32768 /\ d out <> -32768.
Proof.
  intros Ha Hb Ht.
  destruct (lw_math_trig_functions_bounded theta Ht) as (tc & Htc & Hc & Hs).
  pose proof (amplitude_product_bound valpha (cos tc) Ha Hc) as Hac.
  pose proof (amplitude_product_bound vbeta (sin tc) Hb Hs) as Hbs.
  pose proof (amplitude_product_bound valpha (sin tc) Ha Hs) as Has.
  pose proof (amplitude_product_bound vbeta (cos tc) Hb Hc) as Hbc.
  assert (Hq : in_int32 (valpha * cos tc - vbeta * sin tc)) by range_side.
  assert (Hd : in_int32 (valpha * sin tc + vbeta * cos tc)) by range_side.
  exists tc.
  exists {| q := saturate_nudge ((valpha * cos tc - vbeta * sin tc) ÷ 32768);
            d := saturate_nudge ((valpha * sin tc + vbeta * cos tc) ÷ 32768) |}.
  split; [exact Htc|]. split.
  { unfold lw_math_park. rewrite Htc. cbn [bind alpha beta].
    rewrite !saturate_nudge_eq.
    rewrite (int32_small (cos tc)), (int32_small (sin tc)) by range_side.
    rewrite (int32_small (valpha * cos tc)), (int32_small (vbeta * sin tc)),
      (int32_small (valpha * sin tc)), (int32_small (vbeta * cos tc))
      by range_side.
    rewrite (int32_small (valpha * cos tc - vbeta * sin tc)) by exact Hq.
    rewrite (int32_small (valpha * sin tc + vbeta * cos tc)) by exact Hd.
    rewrite !(int32_small (_ ÷ _)) by (apply quot_32768_int32; assumption).
    reflexivity. }
  cbn [q d].
  pose proof (saturate_nudge_range ((valpha * cos tc - vbeta * sin tc) ÷ 32768)).
  pose proof (saturate_nudge_range ((valpha * sin tc + vbeta * cos tc) ÷ 32768)).
  repeat (split; [first [assumption | reflexivity | lia]|]). lia.
Qed.

Lemma park_q_d_witness :
  in_int16 32767 /\ in_int16 (-32768) /\ in_int16 8192 /\
  exists tc out,
    lw_math_trig_functions 8192 = Some tc /\
    lw_math_park {| alpha := 32767; beta := -32768 |} 8192 = Some out /\
    q out <> -32768 /\ d out <> -32768.
Proof.
  assert (H1 : in_int16 32767) by (unfold in_int16; lia).
  assert (H2 : in_int16 (-32768)) by (unfold in_int16; lia).
  assert (H3 : in_int16 8192) by (unfold in_int16; lia).
  destruct (park_q_d 32767 (-32768) 8192 H1 H2 H3)
    as (tc & out & Htc & Hout & _ & _ & _ & _ & Hq & Hd).
  split; [exact H1|]. split; [exact H2|]. split; [exact H3|].
  exists tc, out. auto.
Defined.

(** C3: for every input (q, d) and every 16-bit angle theta,
    [lw_math_rev_park] returns alpha = (q*cos + d*sin) / 32768 and
    beta = (d*cos - q*sin) / 32768 (truncating division), each reduced to 16
    bits by the narrowing conversion alone: no clamp and no nudge.  There are
    inputs whose 32-bit quotient exceeds 32767 and whose result is the
    wrapped value, and inputs for which -32768 itself is returned. *)
Theorem rev_park_narrowing (vq vd theta : Z) :
  in_int16 vq -> in_int16 vd -> in_int16 theta ->
  (exists tc out,
     lw_math_trig_functions theta = Some tc /\
     lw_math_rev_park {| q := vq; d := vd |} theta = Some out /\
     alpha out = int16 ((vq * cos tc + vd * sin tc) ÷ 32768) /\
     beta out = int16 ((vd * cos tc - vq * sin tc) ÷ 32768)) /\
  (exists tc out,
     lw_math_trig_functions 8192 = Some tc /\
     lw_math_rev_park {| q := 32767; d := 32767 |} 8192 = Some out /\
     (32767 * cos tc + 32767 * sin tc) ÷ 32768 = 46195 /\
     alpha out = 46195 - 65536) /\
  (exists out,
     lw_math_rev_park {| q := -32768; d := -500 |} 64 = Some out /\
     alpha out = -32768).
Proof.
  intros Hq Hd Ht. split; [|split].
  - destruct (lw_math_trig_functions_bounded theta Ht) as (tc & Htc & Hc & Hs).
    pose proof (amplitude_product_bound vq (cos tc) Hq Hc) as Hqc.
    pose proof (amplitude_product_bound vd (sin tc) Hd Hs) as Hds.
    pose proof (amplitude_product_bound vq (sin tc) Hq Hs) as Hqs.
    pose proof (amplitude_product_bound vd (cos tc) Hd Hc) as Hdc.
    exists tc.
    exists {| alpha := int16 ((vq * cos tc + vd * sin tc) ÷ 32768);
              beta := int16 ((vd * cos tc - vq * sin tc) ÷ 32768) |}.
    split; [exact Htc|]. split; [|split; reflexivity].
    unfold lw_math_rev_park. rewrite Htc. cbn [bind q d].
    rewrite (int32_small (cos tc)), (int32_small (sin tc)) by range_side.
    rewrite (int32_small (vq * cos tc)), (int32_small (vd * sin tc)),
      (int32_small (vq * sin tc)), (int32_small (vd * cos tc)) by range_side.
    rewrite (int32_small (vq * cos tc + vd * sin tc)) by range_side.
    rewrite (int32_small (vd * cos tc - vq * sin tc)) by range_side.
    rewrite !(int32_small (_ ÷ _)) by (apply quot_32768_int32; range_side).
    reflexivity.
  - eexists. eexists. repeat split; vm_compute; reflexivity.
  - eexists. split; vm_compute; reflexivity.
Qed.

Lemma rev_park_narrowing_witness :
  in_int16 100 /\ in_int16 (-200) /\ in_int16 (-16384) /\
  exists tc out,
    lw_math_trig_functions (-16384) = Some tc /\
    lw_math_rev_park {| q := 100; d := -200 |} (-16384) = Some out /\
    alpha out = int16 ((100 * cos tc + -200 * sin tc) ÷ 32768).
Proof.
  assert (H1 : in_int16 100) by (unfold in_int16; lia).
  assert (H2 : in_int16 (-200)) by (unfold in_int16; lia).
  assert (H3 : in_int16 (-16384)) by (unfold in_int16; lia).
  destruct (rev_park_narrowing 100 (-200) (-16384) H1 H2 H3)
    as ((tc & out & Htc & Hout & Halpha & _) & _).
  split; [exact H1|]. split; [exact H2|]. split; [exact H3|].
  exists tc, out. auto.
Defined.

(** ** The Newton iteration over unbounded integers *)

Section Newton.

Lemma newton_next_div (x g : Z) :
  0 <= x -> 1 <= g -> newton_next x g = (g + x / g) / 2.
Proof.
  intros Hx Hg. unfold newton_next.
  rewrite (Z.quot_div_nonneg x g) by lia.
  assert (0 <= x / g) by (apply Z.div_pos; lia).
  rewrite Z.quot_div_nonneg by lia. reflexivity.
Qed.

(** Arithmetic-geometric mean inequality, on the integer iteration. *)
Lemma newton_next_above_root (x g : Z) :
  0 <= x -> 1 <= g -> above_root x (newton_next x g).
Proof.
  intros Hx Hg. rewrite newton_next_div by trivial. unfold above_root.
  assert (Hq0 : 0 <= x / g) by (apply Z.div_pos; lia).
  pose proof (Z.mul_div_le x g ltac:(lia)) as Hlo.
  pose proof (Z.mul_succ_div_gt x g ltac:(lia)) as Hhi.
  set (k := x / g) in *.
  pose proof (Z.mul_div_le (g + k) 2 ltac:(lia)) as Hmlo.
  pose proof (Z.mul_succ_div_gt (g + k) 2 ltac:(lia)) as Hmhi.
  set (m := (g + k) / 2) in *. clearbody m. clearbody k.
  pose proof (Z.square_nonneg (g - k - 1)) as Hsq.
  assert (Hm : (g + k + 1) * (g + k + 1) <= (2 * (m + 1)) * (2 * (m + 1)))
    by (apply Z.mul_le_mono_nonneg; lia).
  nia.
Qed.

Lemma newton_next_pos (x g : Z) :
  1 <= x -> 1 <= g -> 1 <= newton_next x g.
Proof.
  intros Hx Hg.
  pose proof (newton_next_above_root x g ltac:(lia) Hg) as Ha.
  unfold above_root in Ha.
  assert (0 <= newton_next x g).
  { rewrite newton_next_div by lia.
    apply Z.div_pos; [|lia].
    assert (0 <= x / g) by (apply Z.div_pos; lia). lia. }
  nia.
Qed.

Lemma newton_next_mono_input (x y g : Z) :
  0 <= x <= y -> 1 <= g -> newton_next x g <= newton_next y g.
Proof.
  intros Hxy Hg. rewrite !newton_next_div by lia.
  apply Z.div_le_mono; [lia|].
  pose proof (Z.div_le_mono x y g ltac:(lia) ltac:(lia)). lia.
Qed.

(** Above the root the iteration function is monotone in the guess. *)
Lemma newton_next_mono_guess (y g h : Z) :
  0 <= y -> 1 <= g <= h -> y < g * g -> newton_next y g <= newton_next y h.
Proof.
  intros Hy Hgh Hsq. rewrite !newton_next_div by lia.
  apply Z.div_le_mono; [lia|].
  assert (Hq0 : 0 <= y / g) by (apply Z.div_pos; lia).
  pose proof (Z.mul_div_le y g ltac:(lia)) as Hlo.
  assert (Hqg : y / g < g) by (apply Z.div_lt_upper_bound; lia).
  set (k := y / g) in *.
  assert (Hk : k - (h - g) <= y / h).
  { apply Z.div_le_lower_bound; [lia|]. nia. }
  lia.
Qed.

(** A guess at or above the root is never exceeded by more than the
    oscillation at [x = g*g + 2*g]. *)
Lemma newton_next_upper (x g U : Z) :
  1 <= x -> 1 <= g -> above_root x g -> g <= U ->
  x + 1 < (U + 1) * (U + 1) ->
  newton_next x g <= U.
Proof.
  unfold above_root. intros Hx Hg Ha HU Hx1.
  rewrite newton_next_div by lia.
  assert (Hq : x / g <= g + 2).
  { assert (x / g < g + 3); [|lia].
    apply Z.div_lt_upper_bound; [lia|]. nia. }
  destruct (Z.eq_dec U g) as [->|Hne].
  - assert (Hq' : x / g < g + 2) by (apply Z.div_lt_upper_bound; [lia|]; nia).
    apply Z.lt_succ_r. apply Z.div_lt_upper_bound; lia.
  - apply Z.lt_succ_r. apply Z.div_lt_upper_bound; lia.
Qed.

Lemma newton_next_step_le (x y g h : Z) :
  1 <= x < y -> 1 <= g <= h -> above_root x g ->
  newton_next x g <= newton_next y h.
Proof.
  intros Hxy Hgh Ha.
  destruct (Z.lt_ge_cases y (g * g)) as [Hlt|Hge].
  - transitivity (newton_next y g).
    + apply newton_next_mono_input; lia.
    + apply newton_next_mono_guess; lia.
  - pose proof (newton_next_above_root y h ltac:(lia) ltac:(lia)) as Hy.
    pose proof (newton_next_pos y h ltac:(lia) ltac:(lia)) as Hp.
    unfold above_root in Hy.
    apply newton_next_upper; try lia; trivial.
    nia.
Qed.

Lemma newton_fixed_point (x g : Z) :
  1 <= x -> 1 <= g -> newton_next x g = g ->
  g * g <= x /\ x + 1 < (g + 1) * (g + 1).
Proof.
  intros Hx Hg. rewrite newton_next_div by lia. intros Hfix.
  assert (Hq0 : 0 <= x / g) by (apply Z.div_pos; lia).
  pose proof (Z.mul_div_le x g ltac:(lia)) as Hlo.
  pose proof (Z.mul_succ_div_gt x g ltac:(lia)) as Hhi.
  pose proof (Z.mul_div_le (g + x / g) 2 ltac:(lia)) as Hmlo.
  pose proof (Z.mul_succ_div_gt (g + x / g) 2 ltac:(lia)) as Hmhi.
  rewrite Hfix in Hmlo, Hmhi.
  set (k := x / g) in *. split; nia.
Qed.

Lemma newton_iterate_above_root (n : nat) (x g : Z) :
  1 <= x -> 1 <= g -> above_root x g ->
  above_root x (newton_iterate n x g) /\ 1 <= newton_iterate n x g.
Proof.
  intros Hx. revert g.
  induction n as [|n IH]; intros g Hg Ha; cbn [newton_iterate].
  - auto.
  - pose proof (newton_next_above_root x g ltac:(lia) Hg).
    pose proof (newton_next_pos x g Hx Hg).
    destruct (newton_next x g =? g); auto.
Qed.

Lemma newton_iterate_upper (n : nat) (x U : Z) :
  1 <= x -> x + 1 < (U + 1) * (U + 1) ->
  forall g, 1 <= g -> above_root x g -> g <= U ->
            newton_iterate n x g <= U.
Proof.
  intros Hx HU.
  induction n as [|n IH]; intros g Hg Ha HgU; cbn [newton_iterate].
  - exact HgU.
  - pose proof (newton_next_upper x g U Hx Hg Ha HgU HU).
    pose proof (newton_next_above_root x g ltac:(lia) Hg).
    pose proof (newton_next_pos x g Hx Hg).
    destruct (newton_next x g =? g); auto.
Qed.

(** Two runs of the capped iteration on ordered inputs stay ordered. *)
Lemma newton_iterate_mono (n : nat) (x y : Z) :
  1 <= x < y ->
  forall g h, 1 <= g <= h -> g = h \/ above_root x g ->
              newton_iterate n x g <= newton_iterate n y h.
Proof.
  intros Hxy.
  induction n as [|n IH]; intros g h Hgh Hor; cbn [newton_iterate].
  - lia.
  - assert (Hstep : newton_next x g <= newton_next y h).
    { destruct Hor as [->|Ha].
      - apply newton_next_mono_input; lia.
      - apply newton_next_step_le; trivial. }
    pose proof (newton_next_above_root x g ltac:(lia) ltac:(lia)) as Hax.
    pose proof (newton_next_above_root y h ltac:(lia) ltac:(lia)) as Hay.
    pose proof (newton_next_pos x g ltac:(lia) ltac:(lia)) as Hpx.
    pose proof (newton_next_pos y h ltac:(lia) ltac:(lia)) as Hpy.
    destruct (Z.eqb_spec (newton_next x g) g) as [Hfx|Hnx].
    + (* the run on [x] has converged: its result is the root of [x] *)
      destruct (newton_fixed_point x g ltac:(lia) ltac:(lia) Hfx) as [Hsq _].
      rewrite Hfx.
      assert (HR : forall R, above_root y R -> 1 <= R -> g <= R).
      { unfold above_root. intros R HR1 HR2. nia. }
      destruct (newton_next y h =? h).
      * apply HR; trivial.
      * apply HR;
          apply (newton_iterate_above_root n y _ ltac:(lia) Hpy Hay).
    + destruct (Z.eqb_spec (newton_next y h) h) as [Hfy|Hny].
      * (* the run on [y] has converged, the one on [x] goes on *)
        destruct (newton_fixed_point y h ltac:(lia) ltac:(lia) Hfy) as [_ Hup].
        rewrite Hfy in *.
        apply newton_iterate_upper; trivial; lia.
      * apply IH; [lia | right; exact Hax].
Qed.

End Newton.

(** ** The loop of [lw_math_sqrt] against the Newton iteration *)

Section SqrtLoop.

Variable input : Z.
Hypothesis input_pos : 1 <= input.
Hypothesis input_int32 : in_int32 input.

Lemma newton_seed_in_range : guess_in_range input (newton_seed input).
Proof.
  unfold guess_in_range, newton_seed.
  destruct (Z.leb_spec input 2097152); lia.
Qed.

Lemma newton_next_in_range (g : Z) :
  guess_in_range input g -> guess_in_range input (newton_next input g).
Proof.
  unfold guess_in_range, in_int32 in *. intros Hg.
  assert (Hg1 : 1 <= g) by lia.
  rewrite newton_next_div by lia.
  pose proof (newton_next_pos input g input_pos Hg1) as Hp.
  rewrite newton_next_div in Hp by lia.
  assert (Hq0 : 0 <= input / g) by (apply Z.div_pos; lia).
  destruct Hg as [[Hi Hg]|[Hi Hg]]; [left|right]; (split; [lia|]).
  - assert (input / g <= input)
      by (apply Z.div_le_upper_bound; [lia|]; nia).
    split; [lia|].
    apply Z.lt_succ_r, Z.div_lt_upper_bound; lia.
  - assert (Hq : input / g < 2097152)
      by (apply Z.div_lt_upper_bound; [lia|]; nia).
    split.
    + apply Z.div_le_lower_bound; [lia|].
      destruct (Z.le_gt_cases 2048 g) as [Hbig|Hsmall]; [lia|].
      assert (1024 <= input / g)
        by (apply Z.div_le_lower_bound; [lia|]; nia).
      lia.
    + apply Z.lt_succ_r, Z.div_lt_upper_bound; lia.
Qed.

(** On guesses in range every conversion of the loop body is the identity
    and the division is defined. *)
Lemma loop_body_exact (s : loop_state) :
  guess_in_range input (wtemproot s) -> 0 <= biter s < 6 ->
  loop_body input s =
    Some (if newton_next input (wtemproot s) =? wtemproot s
          then ({| biter := 6; wtemproot := wtemproot s |},
                newton_next input (wtemproot s))
          else ({| biter := biter s + 1;
                   wtemproot := newton_next input (wtemproot s) |},
                newton_next input (wtemproot s))).
Proof.
  intros Hg Hb.
  pose proof (newton_next_in_range _ Hg) as Hn.
  unfold guess_in_range, in_int32 in *.
  set (g := wtemproot s) in *.
  assert (Hg1 : 1 <= g) by lia.
  assert (Hq : 0 <= input ÷ g <= input).
  { rewrite Z.quot_div_nonneg by lia. split.
    - apply Z.div_pos; lia.
    - apply Z.div_le_upper_bound; [lia|]; nia. }
  assert (Hsum : 0 <= g + input ÷ g <= 2147483647).
  { split; [lia|]. rewrite Z.quot_div_nonneg by lia.
    destruct Hg as [[Hi Hg]|[Hi Hg]].
    - rewrite Z.quot_div_nonneg in Hq by lia. lia.
    - assert (input / g < 2097152)
        by (apply Z.div_lt_upper_bound; [lia|]; nia).
      lia. }
  unfold loop_body, sdiv. fold g.
  destruct (Z.eqb_spec g 0) as [H0|_]; [lia|].
  destruct (Z.eqb_spec g (-1)) as [H0|_]; [lia|].
  rewrite andb_false_r. cbn [bind].
  rewrite (int32_small (input ÷ g)) by range_side.
  rewrite (int32_small (g + input ÷ g)) by range_side.
  rewrite (int32_small 2) by range_side.
  fold (newton_next input g).
  rewrite (int32_small (newton_next input g)) by range_side.
  rewrite (uint8_small 6) by lia.
  rewrite (uint8_small (biter s + 1)) by lia.
  destruct (newton_next input g =? g); reflexivity.
Qed.

Lemma do_while_newton (n : nat) :
  forall (fuel : nat) (s : loop_state),
    (1 <= n <= 6)%nat -> (n <= fuel)%nat ->
    biter s = 6 - Z.of_nat n -> guess_in_range input (wtemproot s) ->
    do_while fuel input s = Some (newton_iterate n input (wtemproot s)).
Proof.
  induction n as [|n IH]; intros fuel s Hn Hfuel Hb Hg; [lia|].
  destruct fuel as [|fuel]; [lia|].
  cbn [do_while newton_iterate].
  rewrite loop_body_exact by (trivial; lia).
  cbn [bind].
  destruct (newton_next input (wtemproot s) =? wtemproot s); cbn [fst snd biter].
  - reflexivity.
  - destruct n as [|n'].
    + rewrite Hb. cbn. reflexivity.
    + destruct (Z.ltb_spec (biter s + 1) 6) as [Hlt|Hge]; [|lia].
      rewrite IH; cbn [wtemproot biter]; trivial; try lia.
      apply newton_next_in_range, Hg.
Qed.

End SqrtLoop.

(** The C function computes the capped Newton iteration of the
    specification, whenever it is given fuel for six passes of the loop. *)
Lemma lw_math_sqrt_newton (input : Z) (fuel : nat) :
  in_int32 input -> (6 <= fuel)%nat ->
  lw_math_sqrt fuel input = Some (sqrt_spec input).
Proof.
  intros Hi Hfuel. unfold lw_math_sqrt, sqrt_spec.
  rewrite Z.gtb_ltb.
  destruct (Z.ltb_spec 0 input) as [Hpos|Hnp];
    destruct (Z.leb_spec input 0) as [Hle|Hgt]; try lia.
  - rewrite (int32_small 2097152), (int32_small 128), (int32_small 8192),
      (uint8_small 0) by range_side.
    fold (newton_seed input).
    rewrite (do_while_newton input ltac:(lia) Hi 6%nat fuel); cbn [wtemproot biter];
      trivial; try lia.
    apply newton_seed_in_range; lia.
  - rewrite int32_small by range_side. reflexivity.
Qed.

(** After at least one pass the result is at or above the root, whatever
    the seed. *)
Lemma newton_iterate_S_above_root (n : nat) (x g : Z) :
  1 <= x -> 1 <= g ->
  above_root x (newton_iterate (S n) x g) /\ 1 <= newton_iterate (S n) x g.
Proof.
  intros Hx Hg. cbn [newton_iterate].
  pose proof (newton_next_above_root x g ltac:(lia) Hg).
  pose proof (newton_next_pos x g Hx Hg).
  destruct (newton_next x g =? g); [auto|].
  apply newton_iterate_above_root; trivial.
Qed.

Lemma sqrt_spec_pos (x : Z) :
  1 <= x -> above_root x (sqrt_spec x) /\ 1 <= sqrt_spec x.
Proof.
  intros Hx. unfold sqrt_spec.
  destruct (Z.leb_spec x 0); [lia|].
  apply newton_iterate_S_above_root; [lia|].
  unfold newton_seed; destruct (x <=? 2097152); lia.
Qed.

Lemma sqrt_spec_mono (x y : Z) : 0 <= x <= y -> sqrt_spec x <= sqrt_spec y.
Proof.
  intros Hxy.
  destruct (Z.eq_dec x y) as [->|Hne]; [lia|].
  destruct (Z.eq_dec x 0) as [->|Hx0].
  { destruct (sqrt_spec_pos y ltac:(lia)) as [_ Hy].
    change (sqrt_spec 0) with 0. lia. }
  assert (Hsame : forall u v, 1 <= u < v -> newton_seed u = newton_seed v ->
                              sqrt_spec u <= sqrt_spec v).
  { intros u v Huv Hseed. unfold sqrt_spec.
    destruct (Z.leb_spec u 0); [lia|]. destruct (Z.leb_spec v 0); [lia|].
    rewrite Hseed.
    assert (1 <= newton_seed v)
      by (unfold newton_seed; destruct (v <=? 2097152); lia).
    apply newton_iterate_mono; auto; lia. }
  unfold newton_seed in Hsame.
  destruct (Z.leb_spec x 2097152) as [Hxs|Hxl];
    destruct (Z.leb_spec y 2097152) as [Hys|Hyl]; try lia.
  - apply Hsame; [lia|].
    destruct (Z.leb_spec x 2097152); destruct (Z.leb_spec y 2097152); lia.
  - (* the two inputs use different seeds: compare through the boundary *)
    assert (Hb : sqrt_spec x <= sqrt_spec 2097152).
    { destruct (Z.eq_dec x 2097152) as [->|Hnb]; [lia|].
      apply Hsame; [lia|].
      destruct (Z.leb_spec x 2097152); [reflexivity|lia]. }
    assert (Hv : sqrt_spec 2097152 = 1448) by (vm_compute; reflexivity).
    destruct (sqrt_spec_pos y ltac:(lia)) as [Hay Hpy].
    unfold above_root in Hay. nia.
  - apply Hsame; [lia|].
    destruct (Z.leb_spec x 2097152); destruct (Z.leb_spec y 2097152); lia.
Qed.

(** ** Claims about the square root *)

(** C7: [lw_math_sqrt] returns 0 for every input <= 0; for every input > 0
    it returns the result of iterating next = (guess + input/guess) / 2
    (truncating division) from guess = 128 if input <= 2097152 and 8192
    otherwise, stopping when next == guess or after exactly 6 iterations. *)
Theorem lw_math_sqrt_spec (input : Z) (fuel : nat) :
  in_int32 input -> (6 <= fuel)%nat ->
  lw_math_sqrt fuel input =
    Some (if input <=? 0 then 0
          else newton_iterate 6 input (if input <=? 2097152 then 128 else 8192)).
Proof. intros Hi Hf. now rewrite lw_math_sqrt_newton. Qed.

Lemma lw_math_sqrt_spec_witness :
  in_int32 2147483647 /\ (6 <= 6)%nat /\
  lw_math_sqrt 6 2147483647 = Some (newton_iterate 6 2147483647 8192).
Proof.
  assert (H : in_int32 2147483647) by (unfold in_int32; lia).
  split; [exact H|]. split; [lia|].
  exact (lw_math_sqrt_spec 2147483647 6 H (le_n 6)).
Defined.

(** C8: [lw_math_sqrt] is monotonic non-decreasing on non-negative inputs:
    for all 32-bit x, y with 0 <= x <= y, the result at x is at most the
    result at y. *)
Theorem lw_math_sqrt_monotone (x y : Z) (fuel : nat) :
  in_int32 x -> in_int32 y -> 0 <= x <= y -> (6 <= fuel)%nat ->
  exists rx ry,
    lw_math_sqrt fuel x = Some rx /\
    lw_math_sqrt fuel y = Some ry /\
    rx <= ry.
Proof.
  intros Hx Hy Hxy Hf.
  exists (sqrt_spec x), (sqrt_spec y).
  rewrite !lw_math_sqrt_newton by trivial.
  repeat split. now apply sqrt_spec_mono.
Qed.

Lemma lw_math_sqrt_monotone_witness :
  in_int32 2097152 /\ in_int32 2097153 /\ 0 <= 2097152 <= 2097153 /\
  exists rx ry,
    lw_math_sqrt 6 2097152 = Some rx /\
    lw_math_sqrt 6 2097153 = Some ry /\
    rx <= ry.
Proof.
  assert (H1 : in_int32 2097152) by (unfold in_int32; lia).
  assert (H2 : in_int32 2097153) by (unfold in_int32; lia).
  assert (H3 : 0 <= 2097152 <= 2097153) by lia.
  split; [exact H1|]. split; [exact H2|]. split; [exact H3|].
  exact (lw_math_sqrt_monotone 2097152 2097153 6 H1 H2 H3 (le_n 6)).
Defined.

(** ** The cross-format divide *)

Section CrossFormat.

Lemma shl_32_value (x n : Z) :
  0 <= n < 32 -> shl 32 x n = Some (int32 (x * 2 ^ n)).
Proof.
  intros Hn. unfold shl.
  destruct (Z.leb_spec 0 n); [|lia]. destruct (Z.ltb_spec n 32); [|lia].
  cbn [andb]. rewrite Z.shiftl_mul_pow2 by lia. reflexivity.
Qed.

Lemma shr_32_value (x n : Z) :
  0 <= n < 32 -> shr 32 x n = Some (x / 2 ^ n).
Proof.
  intros Hn. unfold shr.
  destruct (Z.leb_spec 0 n); [|lia]. destruct (Z.ltb_spec n 32); [|lia].
  cbn [andb]. rewrite Z.shiftr_div_pow2 by lia. reflexivity.
Qed.

(** [FCONV] scales by a power of two: up with wrap-around, down with
    rounding toward minus infinity. *)
Lemma FCONV_value (x q1 q2 : Z) :
  in_int32 q1 -> in_int32 q2 -> -32 < q2 - q1 < 32 ->
  FCONV x q1 q2 =
    Some (if q1 <? q2 then int32 (x * 2 ^ (q2 - q1)) else x / 2 ^ (q1 - q2)).
Proof.
  intros H1 H2 Hd. unfold FCONV. rewrite Z.gtb_ltb.
  destruct (Z.ltb_spec q1 q2).
  - rewrite int32_small by range_side. apply shl_32_value. lia.
  - rewrite int32_small by range_side. apply shr_32_value. lia.
Qed.

End CrossFormat.

(** C9, as stated, fails: with every format equal to 1, dividing 8 by 4
    gives 4 through [FDIVG] and 2 through conversion of both operands to
    the result format. *)
Lemma FDIVG_differs_from_normalised :
  FCONV 4 1 1 = Some 4 /\
  FDIVG 8 4 1 1 1 = Some 4 /\
  FDIVG_normalised 8 4 1 1 1 = Some 2 /\
  FDIVG 8 4 1 1 1 <> FDIVG_normalised 8 4 1 1 1.
Proof. repeat split; try (vm_compute; reflexivity). vm_compute. discriminate. Qed.

(** C9, amended: the cross-format divide converts the dividend alone, from
    format q1 to format q2+q3 (a multiplication by 2^(q2+q3-q1) with 32-bit
    wrap-around when q1 < q2+q3, a floor division by 2^(q1-q2-q3) otherwise),
    and divides it by the divisor as given, with truncation; the divisor is
    not converted.  This holds for every dividend, every nonzero divisor
    (the quotient INT32_MIN / -1 apart) and all formats in shift range. *)
Theorem FDIVG_converts_dividend_only (x y q1 q2 q3 : Z) :
  in_int32 x -> in_int32 y -> y <> 0 ->
  0 <= q1 <= 31 -> 0 <= q2 <= 31 -> 0 <= q3 <= 31 ->
  -32 < q2 + q3 - q1 < 32 ->
  exists n,
    FCONV x q1 (q2 + q3) = Some n /\
    n = (if q1 <? q2 + q3 then int32 (x * 2 ^ (q2 + q3 - q1))
         else x / 2 ^ (q1 - (q2 + q3))) /\
    (~ (n = -2147483648 /\ y = -1) -> FDIVG x y q1 q2 q3 = Some (n ÷ y)).
Proof.
  intros Hx Hy Hy0 H1 H2 H3 Hd.
  pose proof (FCONV_value x q1 (q2 + q3) ltac:(range_side) ltac:(range_side) Hd)
    as Hconv.
  eexists. split; [exact Hconv|]. split; [reflexivity|].
  intros Hno. unfold FDIVG.
  rewrite (int32_small (q2 + q3)) by range_side.
  rewrite Hconv. cbn [bind]. unfold sdiv.
  destruct (Z.eqb_spec y 0) as [|_]; [contradiction|].
  match goal with
  | |- context [(?n =? - 2 ^ (32 - 1)) && (y =? -1)] =>
      destruct (Z.eqb_spec n (- 2 ^ (32 - 1))) as [Hmin|_];
      destruct (Z.eqb_spec y (-1)) as [Hm1|_]; cbn [andb]; try reflexivity
  end.
  exfalso. apply Hno. split; [exact Hmin | exact Hm1].
Qed.

Lemma FDIVG_converts_dividend_only_witness :
  exists n,
    FCONV 8 1 (1 + 1) = Some n /\
    n = 16 /\
    FDIVG 8 4 1 1 1 = Some (n ÷ 4).
Proof.
  assert (H8 : in_int32 8) by (unfold in_int32; lia).
  assert (H4 : in_int32 4) by (unfold in_int32; lia).
  destruct (FDIVG_converts_dividend_only 8 4 1 1 1 H8 H4
              ltac:(lia) ltac:(lia) ltac:(lia) ltac:(lia) ltac:(lia))
    as (n & Hn & Hv & Hq).
  exists n. split; [exact Hn|].
  assert (Hn16 : n = 16) by (rewrite Hv; vm_compute; reflexivity).
  split; [exact Hn16|].
  apply Hq. intros [Hmin _]. rewrite Hn16 in Hmin. discriminate Hmin.
Defined.

(** ** Integer and fractional part of a fixed-point number *)

Section IntegerPart.

Variable long_bits : Z.
Hypothesis long_at_least_32 : 32 <= long_bits.

Lemma long_small (z : Z) :
  - 2 ^ (long_bits - 1) <= z < 2 ^ (long_bits - 1) -> long long_bits z = z.
Proof. intros Hz. apply wrap_signed_small; [lia | exact Hz]. Qed.

Lemma long_holds_int32 : 2147483648 <= 2 ^ (long_bits - 1).
Proof.
  change 2147483648 with (2 ^ 31).
  apply Z.pow_le_mono_r; lia.
Qed.

Lemma one_shl_pow2 (qf : Z) :
  0 <= qf <= 30 -> one_shl long_bits qf = Some (2 ^ qf).
Proof.
  intros Hq. pose proof long_holds_int32 as HL.
  unfold one_shl, shl. rewrite uint32_small by lia.
  destruct (Z.leb_spec 0 qf); [|lia]. destruct (Z.ltb_spec qf long_bits); [|lia].
  cbn [andb]. rewrite (long_small 1) by lia.
  rewrite Z.shiftl_mul_pow2, Z.mul_1_l by lia.
  assert (0 < 2 ^ qf <= 2 ^ 30)
    by (split; [apply Z.pow_pos_nonneg | apply Z.pow_le_mono_r]; lia).
  fold (long long_bits (2 ^ qf)). rewrite long_small by lia. reflexivity.
Qed.

(** Truncation of the biased dividend is the floor of the quotient. *)
Lemma biased_quot_floor (f p : Z) :
  f < 0 -> 0 < p -> (f - p + 1) ÷ p = f / p.
Proof.
  intros Hf Hp.
  replace (f - p + 1) with (- (p - 1 - f)) by lia.
  rewrite Z.quot_opp_l by lia.
  rewrite Z.quot_div_nonneg by lia.
  pose proof (Z.div_mod f p ltac:(lia)) as Hfm.
  pose proof (Z.mod_pos_bound f p Hp) as Hfb.
  pose proof (Z.div_mod (p - 1 - f) p ltac:(lia)) as Hgm.
  pose proof (Z.mod_pos_bound (p - 1 - f) p Hp) as Hgb.
  nia.
Qed.

(** Where the subtraction [f - (1L << q)] is representable in [long], the
    two functions split [f] into the floor of [f / 2^q] and the
    non-negative remainder. *)
Lemma fix_int_fract_decompose (f qf : Z) :
  in_int32 f -> 0 <= qf <= 30 ->
  0 <= f \/ - 2 ^ (long_bits - 1) <= f - 2 ^ qf ->
  lw_math_fix_2_int long_bits f qf = Some (f / 2 ^ qf) /\
  lw_math_fix_fract_part long_bits f qf = Some (f mod 2 ^ qf) /\
  f / 2 ^ qf * 2 ^ qf + f mod 2 ^ qf = f /\
  0 <= f mod 2 ^ qf < 2 ^ qf.
Proof.
  intros Hf Hq Hno. pose proof long_holds_int32 as HL.
  assert (Hp : 0 < 2 ^ qf <= 1073741824).
  { change 1073741824 with (2 ^ 30).
    split; [apply Z.pow_pos_nonneg | apply Z.pow_le_mono_r]; lia. }
  pose proof (Z.mod_pos_bound f (2 ^ qf) ltac:(lia)) as Hm.
  pose proof (Z.div_mod f (2 ^ qf) ltac:(lia)) as Hdm.
  assert (Hquo : in_int32 (f / 2 ^ qf)).
  { unfold in_int32 in *. split.
    - apply Z.div_le_lower_bound; nia.
    - assert (f / 2 ^ qf < 2147483648); [|lia].
      apply Z.div_lt_upper_bound; nia. }
  unfold in_int32 in Hf.
  split; [|split; [|split; [lia | exact Hm]]].
  - unfold lw_math_fix_2_int. rewrite one_shl_pow2 by trivial. cbn [bind].
    rewrite (long_small 1) by lia.
    rewrite (long_small f) by lia.
    unfold sdiv.
    destruct (Z.eqb_spec (2 ^ qf) 0) as [|_]; [lia|].
    destruct (Z.eqb_spec (2 ^ qf) (-1)) as [|_]; [lia|].
    rewrite !andb_false_r. cbn [bind].
    destruct (Z.geb_spec f 0) as [Hpos|Hneg].
    + rewrite Z.quot_div_nonneg by lia. now rewrite int32_small.
    + destruct Hno as [|Hno]; [lia|].
      rewrite (long_small (f - 2 ^ qf)) by lia.
      rewrite (long_small (f - 2 ^ qf + 1)) by lia.
      rewrite biased_quot_floor by lia. now rewrite int32_small.
  - unfold lw_math_fix_fract_part. rewrite one_shl_pow2 by trivial. cbn [bind].
    rewrite (long_small 1) by lia.
    rewrite (long_small f) by lia.
    rewrite (long_small (2 ^ qf - 1)) by lia.
    replace (2 ^ qf - 1) with (Z.ones qf) by (rewrite Z.ones_equiv; lia).
    rewrite Z.land_ones by lia.
    rewrite int32_small by range_side. reflexivity.
Qed.

End IntegerPart.

(** With a 64-bit [long] the subtraction never overflows. *)
Lemma fix_int_fract_decompose_LP64 (f qf : Z) :
  in_int32 f -> 0 <= qf <= 30 ->
  lw_math_fix_2_int LP64 f qf = Some (f / 2 ^ qf) /\
  lw_math_fix_fract_part LP64 f qf = Some (f mod 2 ^ qf).
Proof.
  intros Hf Hq.
  assert (Hp : 0 < 2 ^ qf <= 1073741824).
  { change 1073741824 with (2 ^ 30).
    split; [apply Z.pow_pos_nonneg | apply Z.pow_le_mono_r]; lia. }
  destruct (fix_int_fract_decompose LP64 ltac:(unfold LP64; lia) f qf Hf Hq)
    as (Hi & Hfr & _).
  - right. unfold in_int32 in Hf. change (2 ^ (LP64 - 1)) with (2 ^ 63).
    assert (2 ^ 63 = 9223372036854775808) by reflexivity. lia.
  - auto.
Qed.

(** ** Claim about the integer and fractional part *)

(** C10 on a target whose [long] is 32 bits wide: at f = -2147483648 (the
    value -32768.0 in Q16.16) and q = 16 the subtraction [f - (1L << q)]
    overflows; [lw_math_fix_2_int] returns 32767, not the floor -32768, and
    integer part times 2^q plus fractional part is not f.  With a 64-bit
    [long] the same input gives -32768. *)
Theorem fix_2_int_long32_overflow :
  lw_math_fix_2_int ILP32 (-2147483648) 16 = Some 32767 /\
  lw_math_fix_fract_part ILP32 (-2147483648) 16 = Some 0 /\
  32767 * 2 ^ 16 + 0 <> -2147483648 /\
  -2147483648 / 2 ^ 16 = -32768 /\
  lw_math_fix_2_int LP64 (-2147483648) 16 = Some (-32768).
Proof. repeat split; try (vm_compute; reflexivity). vm_compute. discriminate. Qed.


(** ** The conversion and same-format operators of [lw_math.h] *)

Section FixMacroFacts.

Lemma shl_value (w x n : Z) :
  0 <= n < w -> shl w x n = Some (wrap_signed w (x * 2 ^ n)).
Proof.
  intros Hn. unfold shl.
  destruct (Z.leb_spec 0 n); [|lia]. destruct (Z.ltb_spec n w); [|lia].
  cbn [andb]. rewrite Z.shiftl_mul_pow2 by lia. reflexivity.
Qed.

Lemma shr_value (w x n : Z) :
  0 <= n < w -> shr w x n = Some (x / 2 ^ n).
Proof.
  intros Hn. unfold shr.
  destruct (Z.leb_spec 0 n); [|lia]. destruct (Z.ltb_spec n w); [|lia].
  cbn [andb]. rewrite Z.shiftr_div_pow2 by lia. reflexivity.
Qed.

Lemma int64_small z : in_int64 z -> int64 z = z.
Proof.
  intros Hz. apply wrap_signed_small; [lia|].
  unfold in_signed, in_int64 in *. simpl. lia.
Qed.

Lemma pow2_format (n : Z) : 0 <= n <= 31 -> 1 <= 2 ^ n <= 2147483648.
Proof.
  intros Hn. change 2147483648 with (2 ^ 31).
  split; [|apply Z.pow_le_mono_r; lia].
  assert (0 < 2 ^ n) by (apply Z.pow_pos_nonneg; lia). lia.
Qed.

Lemma pow2_split (n : Z) : 0 <= n <= 31 -> 2 ^ n * 2 ^ (31 - n) = 2147483648.
Proof.
  intros Hn. rewrite <- Z.pow_add_r by lia.
  replace (n + (31 - n)) with 31 by lia. reflexivity.
Qed.

(** A right shift by [n] of a 32-bit value leaves a value of [32 - n] bits. *)
Lemma div_pow2_range (f n : Z) :
  in_int32 f -> 0 <= n <= 31 ->
  - 2 ^ (31 - n) <= f / 2 ^ n < 2 ^ (31 - n).
Proof.
  intros Hf Hn. unfold in_int32 in Hf.
  pose proof (pow2_format n Hn) as Hp.
  pose proof (pow2_format (31 - n) ltac:(lia)) as Hp'.
  pose proof (pow2_split n Hn) as Hs.
  split.
  - apply Z.div_le_lower_bound; [lia|]. nia.
  - apply Z.div_lt_upper_bound; [lia|]. nia.
Qed.

Lemma FIX2INT_floor (f qf : Z) :
  in_int32 f -> 0 <= qf <= 31 -> FIX2INT f qf = Some (f / 2 ^ qf).
Proof.
  intros Hf Hq. unfold FIX2INT. rewrite shr_value by lia. cbn [bind].
  pose proof (div_pow2_range f qf Hf Hq) as Hr.
  pose proof (pow2_format (31 - qf) ltac:(lia)).
  rewrite int32_small by range_side. reflexivity.
Qed.

End FixMacroFacts.

(** X1: converting an integer to fixed point and back gives the integer
    again exactly when the integer fits in the [32 - q] integer bits of the
    format; outside that range the left shift loses bits and the round trip
    returns a different number. *)
Theorem INT2FIX_FIX2INT_round_trip (n qf : Z) :
  in_int32 n -> 0 <= qf <= 31 ->
  exists f,
    INT2FIX n qf = Some f /\
    (- 2 ^ (31 - qf) <= n < 2 ^ (31 - qf) -> f = n * 2 ^ qf) /\
    (FIX2INT f qf = Some n <-> - 2 ^ (31 - qf) <= n < 2 ^ (31 - qf)).
Proof.
  intros Hn Hq.
  pose proof (pow2_format qf Hq) as Hp.
  pose proof (pow2_format (31 - qf) ltac:(lia)) as Hp'.
  pose proof (pow2_split qf Hq) as Hs.
  unfold INT2FIX. rewrite shl_value by lia. cbn [bind].
  fold (int32 (n * 2 ^ qf)).
  assert (Hin : in_int32 (int32 (int32 (n * 2 ^ qf)))).
  { unfold int32, wrap_signed, in_int32. change (2 ^ (32 - 1)) with 2147483648.
    pose proof (Z.mod_pos_bound
                  ((n * 2 ^ qf + 2147483648) mod 2 ^ 32 - 2147483648 + 2147483648)
                  (2 ^ 32) ltac:(lia)).
    change (2 ^ 32) with 4294967296 in *. lia. }
  eexists. split; [reflexivity|].
  assert (Hfit : - 2 ^ (31 - qf) <= n < 2 ^ (31 - qf) ->
                 int32 (int32 (n * 2 ^ qf)) = n * 2 ^ qf).
  { intros Hr.
    assert (Hprod : in_int32 (n * 2 ^ qf)).
    { unfold in_int32. clear Hin.
      generalize dependent (2 ^ qf). generalize dependent (2 ^ (31 - qf)).
      intros Q HQ Hr P HP HPQ. nia. }
    rewrite (int32_small _ Hprod). apply int32_small, Hprod. }
  split; [exact Hfit|].
  rewrite FIX2INT_floor by trivial.
  split.
  - intros Heq. injection Heq as Heq.
    pose proof (div_pow2_range _ qf Hin Hq) as Hr. rewrite Heq in Hr. exact Hr.
  - intros Hr. rewrite Hfit by exact Hr.
    rewrite Z.div_mul by lia. reflexivity.
Qed.

Lemma INT2FIX_FIX2INT_round_trip_witness :
  in_int32 (-3) /\ 0 <= 16 <= 31 /\
  exists f, INT2FIX (-3) 16 = Some f /\ FIX2INT f 16 = Some (-3).
Proof.
  assert (H : in_int32 (-3)) by (unfold in_int32; lia).
  assert (Hq : 0 <= 16 <= 31) by lia.
  split; [exact H|]. split; [exact Hq|].
  destruct (INT2FIX_FIX2INT_round_trip (-3) 16 H Hq) as (f & Hf & _ & Hrt).
  exists f. split; [exact Hf|]. apply Hrt. vm_compute. split; [discriminate|reflexivity].
Defined.

(** X2: wherever [f - (1L << q)] is representable in [long], the function
    [lw_math_fix_2_int] and the macro [FIX2INT] return the same integer part,
    the floor of f / 2^q. *)
Theorem fix_2_int_agrees_with_FIX2INT (long_bits f qf : Z) :
  32 <= long_bits -> in_int32 f -> 0 <= qf <= 30 ->
  0 <= f \/ - 2 ^ (long_bits - 1) <= f - 2 ^ qf ->
  lw_math_fix_2_int long_bits f qf = FIX2INT f qf /\
  FIX2INT f qf = Some (f / 2 ^ qf).
Proof.
  intros HL Hf Hq Hno.
  destruct (fix_int_fract_decompose long_bits HL f qf Hf Hq Hno) as (Hi & _).
  rewrite Hi, FIX2INT_floor by (trivial; lia). auto.
Qed.

Lemma fix_2_int_agrees_with_FIX2INT_witness :
  32 <= ILP32 /\ in_int32 (-98305) /\ 0 <= 16 <= 30 /\
  lw_math_fix_2_int ILP32 (-98305) 16 = FIX2INT (-98305) 16 /\
  FIX2INT (-98305) 16 = Some (-2).
Proof.
  assert (HL : 32 <= ILP32) by (unfold ILP32; lia).
  assert (Hf : in_int32 (-98305)) by (unfold in_int32; lia).
  assert (Hq : 0 <= 16 <= 30) by lia.
  split; [exact HL|]. split; [exact Hf|]. split; [exact Hq|].
  apply (fix_2_int_agrees_with_FIX2INT ILP32 (-98305) 16 HL Hf Hq).
  right. vm_compute. discriminate.
Defined.

(** X3: wherever [f - (1L << q)] is representable in [long] (always, for
    f >= 0), integer part times 2^q plus fractional part is f, the integer
    part is the floor of f / 2^q and the fractional part is the remainder in
    [0, 2^q), also for negative f. *)
Theorem fix_2_int_fract_part_split (long_bits f qf : Z) :
  32 <= long_bits -> in_int32 f -> 0 <= qf <= 30 ->
  0 <= f \/ - 2 ^ (long_bits - 1) <= f - 2 ^ qf ->
  exists i r,
    lw_math_fix_2_int long_bits f qf = Some i /\
    lw_math_fix_fract_part long_bits f qf = Some r /\
    i * 2 ^ qf + r = f /\ 0 <= r < 2 ^ qf /\
    i = f / 2 ^ qf /\ r = f mod 2 ^ qf.
Proof.
  intros HL Hf Hq Hno.
  destruct (fix_int_fract_decompose long_bits HL f qf Hf Hq Hno)
    as (Hi & Hr & Hsum & Hrange).
  exists (f / 2 ^ qf), (f mod 2 ^ qf). auto 10.
Qed.

Lemma fix_2_int_fract_part_split_witness :
  32 <= ILP32 /\ in_int32 (-5) /\ 0 <= 1 <= 30 /\
  exists i r,
    lw_math_fix_2_int ILP32 (-5) 1 = Some i /\
    lw_math_fix_fract_part ILP32 (-5) 1 = Some r /\
    i * 2 ^ 1 + r = -5 /\ 0 <= r < 2 ^ 1.
Proof.
  assert (HL : 32 <= ILP32) by (unfold ILP32; lia).
  assert (Hf : in_int32 (-5)) by (unfold in_int32; lia).
  assert (Hq : 0 <= 1 <= 30) by lia.
  split; [exact HL|]. split; [exact Hf|]. split; [exact Hq|].
  destruct (fix_2_int_fract_part_split ILP32 (-5) 1 HL Hf Hq)
    as (i & r & Hi & Hr & Hsum & Hrange & _).
  { right. vm_compute. discriminate. }
  exists i, r. auto.
Defined.

Section WideProducts.

Lemma int32_product_int64 (x y : Z) :
  in_int32 x -> in_int32 y ->
  -4611686016279904256 <= x * y <= 4611686018427387904.
Proof. unfold in_int32. intros Hx Hy. nia. Qed.

Lemma int32_scaled_int64 (x n : Z) :
  in_int32 x -> 0 <= n <= 31 ->
  -4611686018427387904 <= x * 2 ^ n <= 4611686018427387904.
Proof.
  unfold in_int32. intros Hx Hn. pose proof (pow2_format n Hn). nia.
Qed.

End WideProducts.

(** X4: [FMUL] never overflows its 64-bit intermediate: for all 32-bit
    operands and every shift count below 64 the result is the floor of
    a*b / 2^q, narrowed to 32 bits; and the fixed-point one, 2^q, is a
    right unit. *)
Theorem FMUL_value (x y qf : Z) :
  in_int32 x -> in_int32 y -> 0 <= qf <= 63 ->
  FMUL x y qf = Some (int32 (x * y / 2 ^ qf)) /\
  (qf <= 30 -> FMUL x (2 ^ qf) qf = Some x).
Proof.
  intros Hx Hy Hq.
  assert (Hgen : forall u v, in_int32 u -> in_int32 v ->
                             FMUL u v qf = Some (int32 (u * v / 2 ^ qf))).
  { intros u v Hu Hv. unfold FMUL.
    pose proof (int32_product_int64 u v Hu Hv) as Hp.
    rewrite (int64_small u), (int64_small v)
      by (unfold in_int64, in_int32 in *; lia).
    rewrite int64_small by (unfold in_int64; lia).
    rewrite shr_value by lia. reflexivity. }
  split; [apply Hgen; trivial|].
  intros Hq30.
  assert (Hp : 0 < 2 ^ qf <= 1073741824).
  { change 1073741824 with (2 ^ 30).
    split; [apply Z.pow_pos_nonneg | apply Z.pow_le_mono_r]; lia. }
  rewrite Hgen by (trivial; unfold in_int32; lia).
  rewrite Z.div_mul by lia. now rewrite int32_small.
Qed.

Lemma FMUL_value_witness :
  in_int32 (-98304) /\ in_int32 163840 /\ 0 <= 16 <= 63 /\
  FMUL (-98304) 163840 16 = Some (-245760) /\
  FMUL (-98304) (2 ^ 16) 16 = Some (-98304).
Proof.
  assert (Hx : in_int32 (-98304)) by (unfold in_int32; lia).
  assert (Hy : in_int32 163840) by (unfold in_int32; lia).
  assert (Hq : 0 <= 16 <= 63) by lia.
  split; [exact Hx|]. split; [exact Hy|]. split; [exact Hq|].
  destruct (FMUL_value (-98304) 163840 16 Hx Hy Hq) as [Hv _].
  destruct (FMUL_value (-98304) 163840 16 Hx Hy Hq) as [_ Hu].
  split; [rewrite Hv; vm_compute; reflexivity | apply Hu; lia].
Defined.

(** X5: [FDIV] never overflows its 64-bit dividend: for every 32-bit
    dividend, every nonzero 32-bit divisor and every format up to 31 the
    result is the truncated quotient of a * 2^q by b, narrowed to 32 bits.
    Dividing by the fixed-point one returns the dividend, and dividing a
    nonzero value by itself returns one. *)
Theorem FDIV_value (x y qf : Z) :
  in_int32 x -> in_int32 y -> y <> 0 -> 0 <= qf <= 31 ->
  FDIV x y qf = Some (int32 (x * 2 ^ qf ÷ y)) /\
  (qf <= 30 -> FDIV x (2 ^ qf) qf = Some x) /\
  (qf <= 30 -> FDIV y y qf = Some (2 ^ qf)).
Proof.
  intros Hx Hy Hy0 Hq.
  assert (Hgen : forall u v, in_int32 u -> in_int32 v -> v <> 0 ->
                             FDIV u v qf = Some (int32 (u * 2 ^ qf ÷ v))).
  { intros u v Hu Hv Hv0. unfold FDIV.
    pose proof (int32_scaled_int64 u qf Hu Hq) as Hs.
    rewrite (int64_small u), (int64_small v)
      by (unfold in_int64, in_int32 in *; lia).
    rewrite shl_value by lia. cbn [bind].
    fold (int64 (u * 2 ^ qf)). rewrite int64_small by (unfold in_int64; lia).
    unfold sdiv.
    destruct (Z.eqb_spec v 0) as [|_]; [contradiction|].
    destruct (Z.eqb_spec (u * 2 ^ qf) (- 2 ^ (64 - 1))) as [Hmin|_].
    - exfalso. change (- 2 ^ (64 - 1)) with (-9223372036854775808) in Hmin. lia.
    - reflexivity. }
  split; [apply Hgen; trivial|].
  split; intros Hq30.
  - assert (Hp : 0 < 2 ^ qf <= 1073741824).
    { change 1073741824 with (2 ^ 30).
      split; [apply Z.pow_pos_nonneg | apply Z.pow_le_mono_r]; lia. }
    rewrite Hgen by (trivial; unfold in_int32; lia).
    rewrite Z.quot_mul by lia. now rewrite int32_small.
  - assert (Hp : 0 < 2 ^ qf <= 1073741824).
    { change 1073741824 with (2 ^ 30).
      split; [apply Z.pow_pos_nonneg | apply Z.pow_le_mono_r]; lia. }
    rewrite Hgen by trivial.
    rewrite Z.mul_comm, Z.quot_mul by lia.
    rewrite int32_small by (unfold in_int32; lia). reflexivity.
Qed.

Lemma FDIV_value_witness :
  in_int32 65536 /\ in_int32 (-131072) /\ -131072 <> 0 /\ 0 <= 16 <= 31 /\
  FDIV 65536 (-131072) 16 = Some (-32768) /\
  FDIV (-131072) (-131072) 16 = Some (2 ^ 16).
Proof.
  assert (Hx : in_int32 65536) by (unfold in_int32; lia).
  assert (Hy : in_int32 (-131072)) by (unfold in_int32; lia).
  assert (Hy0 : -131072 <> 0) by lia.
  assert (Hq : 0 <= 16 <= 31) by lia.
  split; [exact Hx|]. split; [exact Hy|]. split; [exact Hy0|]. split; [exact Hq|].
  destruct (FDIV_value 65536 (-131072) 16 Hx Hy Hy0 Hq) as (Hv & _ & _).
  destruct (FDIV_value 65536 (-131072) 16 Hx Hy Hy0 Hq) as (_ & _ & Hs).
  split; [rewrite Hv; vm_compute; reflexivity | apply Hs; lia].
Defined.

(** X6: a conversion to a finer format followed by the conversion back is
    the identity whenever the scaled value fits 32 bits; a conversion to a
    coarser format followed by the conversion back clears the dropped
    fraction bits, rounding toward minus infinity. *)
Theorem FCONV_round_trip (x q1 q2 : Z) :
  in_int32 x -> 0 <= q1 <= q2 -> q2 <= 31 ->
  (in_int32 (x * 2 ^ (q2 - q1)) ->
   exists y, FCONV x q1 q2 = Some y /\ FCONV y q2 q1 = Some x) /\
  (exists y, FCONV x q2 q1 = Some y /\
             FCONV y q1 q2 = Some (x - x mod 2 ^ (q2 - q1))).
Proof.
  intros Hx H12 H2.
  pose proof (pow2_format (q2 - q1) ltac:(lia)) as Hp.
  assert (Hr1 : in_int32 q1) by range_side.
  assert (Hr2 : in_int32 q2) by range_side.
  pose proof (FCONV_value x q1 q2 Hr1 Hr2 ltac:(lia)) as Hup.
  pose proof (FCONV_value x q2 q1 Hr2 Hr1 ltac:(lia)) as Hdown.
  destruct (Z.eq_dec q1 q2) as [->|Hne].
  - (* equal formats: both directions are a shift by zero *)
    rewrite Z.ltb_irrefl, Z.sub_diag in *. change (2 ^ 0) with 1 in *.
    rewrite Z.div_1_r in Hup. rewrite Z.mod_1_r, Z.sub_0_r.
    split; [intros _|]; exists x; auto.
  - destruct (Z.ltb_spec q1 q2) as [Hlt|]; [|lia].
    destruct (Z.ltb_spec q2 q1) as [|_]; [lia|].
    split.
    + intros Hfit. rewrite (int32_small _ Hfit) in Hup.
      eexists. split; [exact Hup|].
      rewrite (FCONV_value _ q2 q1 Hr2 Hr1) by lia.
      destruct (Z.ltb_spec q2 q1) as [|_]; [lia|].
      rewrite Z.div_mul by lia. reflexivity.
    + eexists. split; [exact Hdown|].
      rewrite (FCONV_value _ q1 q2 Hr1 Hr2) by lia.
      destruct (Z.ltb_spec q1 q2) as [_|]; [|lia].
      pose proof (Z.div_mod x (2 ^ (q2 - q1)) ltac:(lia)) as Hdm.
      pose proof (Z.mod_pos_bound x (2 ^ (q2 - q1)) ltac:(lia)) as Hm.
      replace (x / 2 ^ (q2 - q1) * 2 ^ (q2 - q1))
        with (x - x mod 2 ^ (q2 - q1)) by lia.
      rewrite int32_small; [reflexivity|].
      (* the floor multiple stays above INT32_MIN, itself a multiple *)
      unfold in_int32 in *. split; [|lia].
      pose proof (pow2_split (q2 - q1) ltac:(lia)) as Hs.
      pose proof (pow2_format (31 - (q2 - q1)) ltac:(lia)) as Hp'.
      assert (Hlow : - 2 ^ (31 - (q2 - q1)) <= x / 2 ^ (q2 - q1)).
      { apply Z.div_le_lower_bound; [lia|]. nia. }
      nia.
Qed.

Lemma FCONV_round_trip_witness :
  in_int32 (-7) /\ 0 <= 3 <= 10 /\ 10 <= 31 /\
  (exists y, FCONV (-7) 3 10 = Some y /\ FCONV y 10 3 = Some (-7)) /\
  (exists y, FCONV (-7) 10 3 = Some y /\ FCONV y 3 10 = Some (-128)).
Proof.
  assert (Hx : in_int32 (-7)) by (unfold in_int32; lia).
  assert (H12 : 0 <= 3 <= 10) by lia.
  assert (H2 : 10 <= 31) by lia.
  split; [exact Hx|]. split; [exact H12|]. split; [exact H2|].
  destruct (FCONV_round_trip (-7) 3 10 Hx H12 H2) as [Hup Hdown].
  split.
  - apply Hup. vm_compute. split; discriminate.
  - exact Hdown.
Defined.

(** X7: [FMULG] multiplies at 32 bits, without widening: when the product
    of the operands fits 32 bits and the format drops by at most 31 bits it
    returns the floor of a*b / 2^(q1+q2-q3), and on operands and result of
    one common format it agrees with [FMUL]. *)
Theorem FMULG_value (x y q1 q2 q3 : Z) :
  in_int32 x -> in_int32 y -> in_int32 (x * y) ->
  0 <= q1 <= 31 -> 0 <= q2 <= 31 -> 0 <= q3 <= 31 ->
  0 <= q1 + q2 - q3 <= 31 ->
  FMULG x y q1 q2 q3 = Some (x * y / 2 ^ (q1 + q2 - q3)) /\
  (q1 = q3 -> q2 = q3 -> FMULG x y q1 q2 q3 = FMUL x y q3).
Proof.
  intros Hx Hy Hxy H1 H2 H3 Hd.
  assert (Hv : FMULG x y q1 q2 q3 = Some (x * y / 2 ^ (q1 + q2 - q3))).
  { unfold FMULG. rewrite (int32_small _ Hxy).
    rewrite (int32_small (q1 + q2)) by range_side.
    rewrite FCONV_value by range_side.
    destruct (Z.ltb_spec (q1 + q2) q3) as [|_]; [lia|]. reflexivity. }
  split; [exact Hv|].
  intros -> ->. rewrite Hv.
  destruct (FMUL_value x y q3 Hx Hy ltac:(lia)) as [-> _].
  replace (q3 + q3 - q3) with q3 by lia.
  pose proof (div_pow2_range (x * y) q3 Hxy H3) as Hr.
  pose proof (pow2_format (31 - q3) ltac:(lia)).
  rewrite int32_small by range_side. reflexivity.
Qed.

Lemma FMULG_value_witness :
  in_int32 (-384) /\ in_int32 640 /\ in_int32 (-384 * 640) /\
  FMULG (-384) 640 8 8 8 = Some (-960) /\
  FMULG (-384) 640 8 8 8 = FMUL (-384) 640 8.
Proof.
  assert (Hx : in_int32 (-384)) by (unfold in_int32; lia).
  assert (Hy : in_int32 640) by (unfold in_int32; lia).
  assert (Hxy : in_int32 (-384 * 640)) by (unfold in_int32; lia).
  split; [exact Hx|]. split; [exact Hy|]. split; [exact Hxy|].
  destruct (FMULG_value (-384) 640 8 8 8 Hx Hy Hxy
              ltac:(lia) ltac:(lia) ltac:(lia) ltac:(lia)) as [Hv Heq].
  split; [rewrite Hv; vm_compute; reflexivity | apply Heq; reflexivity].
Defined.

(** X8: [lw_math_fix_2_int_round] rounds to the nearest integer, halves
    upward: when f + 2^(q-1) fits [fix_t] and the inner call does not
    overflow [long], the result r is the floor of (f + 2^(q-1)) / 2^q and
    f lies in [r*2^q - 2^(q-1), r*2^q + 2^(q-1)). *)
Theorem fix_2_int_round_nearest (long_bits f qf : Z) :
  32 <= long_bits -> in_int32 f -> 1 <= qf <= 30 ->
  f + 2 ^ (qf - 1) <= 2147483647 ->
  0 <= f + 2 ^ (qf - 1) \/ - 2 ^ (long_bits - 1) <= f + 2 ^ (qf - 1) - 2 ^ qf ->
  exists r,
    lw_math_fix_2_int_round long_bits f qf = Some r /\
    r = (f + 2 ^ (qf - 1)) / 2 ^ qf /\
    - 2 ^ (qf - 1) <= f - r * 2 ^ qf < 2 ^ (qf - 1).
Proof.
  intros HL Hf Hq Hfit Hno.
  pose proof (long_holds_int32 long_bits HL) as HLb.
  assert (Hh : 0 < 2 ^ (qf - 1) <= 536870912).
  { change 536870912 with (2 ^ 29).
    split; [apply Z.pow_pos_nonneg | apply Z.pow_le_mono_r]; lia. }
  assert (Hp : 2 ^ qf = 2 * 2 ^ (qf - 1)).
  { replace qf with (Z.succ (qf - 1)) at 1 by lia. apply Z.pow_succ_r. lia. }
  unfold in_int32 in Hf.
  assert (Hsum : in_int32 (f + 2 ^ (qf - 1))) by (unfold in_int32; lia).
  destruct (fix_int_fract_decompose long_bits HL (f + 2 ^ (qf - 1)) qf Hsum
              ltac:(lia) Hno) as (Hi & _ & Hsplit & Hrem).
  exists ((f + 2 ^ (qf - 1)) / 2 ^ qf).
  split; [|split; [reflexivity|lia]].
  unfold lw_math_fix_2_int_round.
  rewrite one_shl_pow2 by (trivial; lia). cbn [bind].
  rewrite (long_small long_bits HL 2) by lia.
  unfold sdiv.
  destruct (Z.eqb_spec 2 0) as [|_]; [lia|].
  destruct (Z.eqb_spec 2 (-1)) as [|_]; [lia|].
  rewrite andb_false_r. cbn [bind].
  replace (2 ^ qf ÷ 2) with (2 ^ (qf - 1))
    by (rewrite Hp, Z.mul_comm, Z.quot_mul; lia).
  rewrite (long_small long_bits HL f) by lia.
  rewrite (long_small long_bits HL (f + 2 ^ (qf - 1))) by lia.
  rewrite (int32_small _ Hsum). exact Hi.
Qed.

Lemma fix_2_int_round_nearest_witness :
  32 <= ILP32 /\ in_int32 (-98304) /\ 1 <= 16 <= 30 /\
  exists r,
    lw_math_fix_2_int_round ILP32 (-98304) 16 = Some r /\
    r = (-98304 + 2 ^ (16 - 1)) / 2 ^ 16.
Proof.
  assert (HL : 32 <= ILP32) by (unfold ILP32; lia).
  assert (Hf : in_int32 (-98304)) by (unfold in_int32; lia).
  assert (Hq : 1 <= 16 <= 30) by lia.
  split; [exact HL|]. split; [exact Hf|]. split; [exact Hq|].
  destruct (fix_2_int_round_nearest ILP32 (-98304) 16 HL Hf Hq)
    as (r & Hr & Hv & _).
  { vm_compute. discriminate. }
  { right. vm_compute. discriminate. }
  exists r. auto.
Defined.

(** ** Accuracy of the square root *)

Section SqrtAccuracy.

(** Checking a decidable property on every integer below a bound. *)
Lemma Z_from_In (n : nat) :
  forall start u, start <= u < start + Z.of_nat n -> In u (Z_from start n).
Proof.
  induction n as [|n IH]; intros start u Hu; [lia|].
  cbn [Z_from]. destruct (Z.eq_dec start u) as [->|Hne]; [now left|].
  right. apply IH. lia.
Qed.

Lemma Z_below_forallb (p : Z -> bool) (n : Z) :
  forallb p (Z_below n) = true ->
  forall u, 0 <= u < n -> p u = true.
Proof.
  intros Hall u Hu. unfold Z_below in Hall.
  rewrite forallb_forall in Hall. apply Hall.
  apply Z_from_In. lia.
Qed.

(** At the last input of every interval between consecutive squares the
    result exceeds the integer root by at most one. *)
Lemma sqrt_spec_interval_ends (n : Z) :
  0 <= n < 46341 ->
  sqrt_spec (Z.min ((n + 1) * (n + 1) - 1) 2147483647) <= n + 1.
Proof.
  intros Hn.
  assert (Hall : forallb
                   (fun k => sqrt_spec (Z.min ((k + 1) * (k + 1) - 1) 2147483647)
                             <=? k + 1)
                   (Z_below 46341) = true) by (vm_cast_no_check (eq_refl true)).
  apply Z.leb_le.
  exact (Z_below_forallb _ _ Hall n Hn).
Qed.

Lemma sqrt_spec_accuracy (x : Z) :
  1 <= x <= 2147483647 -> Z.sqrt x <= sqrt_spec x <= Z.sqrt x + 1.
Proof.
  intros Hx.
  pose proof (Z.sqrt_spec x ltac:(lia)) as Hs. cbv zeta in Hs.
  pose proof (Z.sqrt_nonneg x) as Hs0.
  destruct (sqrt_spec_pos x ltac:(lia)) as [Ha Hp]. unfold above_root in Ha.
  set (n := Z.sqrt x) in *.
  assert (Hn : n < 46341) by nia.
  split; [nia|].
  transitivity (sqrt_spec (Z.min ((n + 1) * (n + 1) - 1) 2147483647)).
  - apply sqrt_spec_mono. unfold Z.succ in Hs. lia.
  - apply sqrt_spec_interval_ends. lia.
Qed.

End SqrtAccuracy.

(** X9: for every positive 32-bit input [lw_math_sqrt] returns the integer
    square root or the integer square root plus one, never less and never
    more; in particular a perfect square n*n gives n or n+1. *)
Theorem lw_math_sqrt_accuracy (x : Z) (fuel : nat) :
  1 <= x <= 2147483647 -> (6 <= fuel)%nat ->
  exists r,
    lw_math_sqrt fuel x = Some r /\
    Z.sqrt x <= r <= Z.sqrt x + 1 /\
    r * r <= x + 2 * r /\ x < (r + 1) * (r + 1).
Proof.
  intros Hx Hf. exists (sqrt_spec x).
  rewrite lw_math_sqrt_newton by (trivial; range_side).
  pose proof (sqrt_spec_accuracy x Hx) as Hacc.
  pose proof (Z.sqrt_spec x ltac:(lia)) as Hs. cbv zeta in Hs.
  pose proof (Z.sqrt_nonneg x).
  unfold Z.succ in Hs.
  split; [reflexivity|]. split; [exact Hacc|]. split; nia.
Qed.

Lemma lw_math_sqrt_accuracy_witness :
  1 <= 2147395600 <= 2147483647 /\ (6 <= 6)%nat /\
  exists r,
    lw_math_sqrt 6 2147395600 = Some r /\
    Z.sqrt 2147395600 <= r <= Z.sqrt 2147395600 + 1.
Proof.
  assert (Hx : 1 <= 2147395600 <= 2147483647) by lia.
  split; [exact Hx|]. split; [lia|].
  destruct (lw_math_sqrt_accuracy 2147395600 6 Hx (le_n 6)) as (r & Hr & Hacc & _).
  exists r. auto.
Defined.

(** X10: [FSQRT(a, q)] of a positive value whose shifted form a * 2^q fits
    32 bits is within one of the integer square root of a * 2^q. *)
Theorem FSQRT_accuracy (x qf : Z) (fuel : nat) :
  1 <= x -> 0 <= qf <= 30 -> x * 2 ^ qf <= 2147483647 -> (6 <= fuel)%nat ->
  exists r,
    FSQRT fuel x qf = Some r /\
    Z.sqrt (x * 2 ^ qf) <= r <= Z.sqrt (x * 2 ^ qf) + 1.
Proof.
  intros Hx Hq Hfit Hf.
  pose proof (pow2_format qf ltac:(lia)) as Hp.
  assert (Hs : 1 <= x * 2 ^ qf <= 2147483647) by nia.
  exists (sqrt_spec (x * 2 ^ qf)).
  unfold FSQRT. rewrite shl_value by lia. cbn [bind].
  fold (int32 (x * 2 ^ qf)). rewrite int32_small by range_side.
  rewrite lw_math_sqrt_newton by (trivial; range_side).
  split; [reflexivity|]. apply sqrt_spec_accuracy, Hs.
Qed.

Lemma FSQRT_accuracy_witness :
  1 <= 4 /\ 0 <= 16 <= 30 /\ 4 * 2 ^ 16 <= 2147483647 /\
  exists r, FSQRT 6 4 16 = Some r /\ Z.sqrt (4 * 2 ^ 16) <= r.
Proof.
  assert (Hx : 1 <= 4) by lia.
  assert (Hq : 0 <= 16 <= 30) by lia.
  assert (Hfit : 4 * 2 ^ 16 <= 2147483647) by (vm_compute; discriminate).
  split; [exact Hx|]. split; [exact Hq|]. split; [exact Hfit|].
  destruct (FSQRT_accuracy 4 16 6 Hx Hq Hfit (le_n 6)) as (r & Hr & Hlo & _).
  exists r. auto.
Defined.

(** ** Symmetries of the trigonometric evaluator *)

Section TrigSymmetry.

Lemma lw_math_trig_functions_at_index (angle : Z) :
  lw_math_trig_functions angle = trig_at_index (trig_index angle).
Proof. unfold lw_math_trig_functions, trig_at_index. reflexivity. Qed.

Lemma trig_eqb_eq (x y : option trig_components_t) :
  trig_eqb x y = true -> x = y.
Proof.
  destruct x as [[cx sx]|], y as [[cy sy]|]; cbn; try discriminate.
  intros H. apply andb_true_iff in H. destruct H as [Hc Hs].
  apply Z.eqb_eq in Hc, Hs. now subst.
Qed.

Lemma int16_wrap_cases (z : Z) :
  -98304 <= z < 98304 ->
  int16 z = z + 65536 \/ int16 z = z \/ int16 z = z - 65536.
Proof.
  intros Hz. unfold int16, wrap_signed.
  change (2 ^ (16 - 1)) with 32768. change (2 ^ 16) with 65536.
  Z.to_euclidean_division_equations. lia.
Qed.

Lemma int16_wrap_range (z : Z) : in_int16 (int16 z).
Proof.
  unfold int16, wrap_signed, in_int16.
  change (2 ^ (16 - 1)) with 32768. change (2 ^ 16) with 65536.
  Z.to_euclidean_division_equations. lia.
Qed.

(** Adding [k] steps of 64 to the angle, with 16-bit wrap-around, advances
    the index by [k] modulo 1024. *)
Lemma trig_index_shift (angle k : Z) :
  in_int16 angle -> 0 <= k < 1024 ->
  trig_index (int16 (angle + 64 * k)) = (trig_index angle + k) mod 1024.
Proof.
  intros Ha Hk.
  pose proof (int16_wrap_range (angle + 64 * k)) as Hr.
  pose proof (trig_index_range angle Ha) as Hu.
  pose proof (trig_index_range _ Hr) as Hu'.
  rewrite !trig_index_div in * by trivial.
  unfold in_int16 in *.
  assert (Hj : exists j, int16 (angle + 64 * k) = angle + 64 * k - 65536 * j).
  { destruct (int16_wrap_cases (angle + 64 * k) ltac:(lia)) as [H|[H|H]];
      [exists (-1) | exists 0 | exists 1]; lia. }
  destruct Hj as [j Hj]. rewrite Hj in *.
  replace (angle + 64 * k - 65536 * j + 32768)
    with (angle + 32768 + (k - 1024 * j) * 64) in * by lia.
  rewrite Z.div_add in * by lia.
  apply Z.mod_unique with (q := j); lia.
Qed.

(** Negating an angle that is not a multiple of the table step mirrors the
    index. *)
Lemma trig_index_neg (angle : Z) :
  in_int16 angle -> angle mod 64 <> 0 ->
  trig_index (- angle) = 1023 - trig_index angle.
Proof.
  intros Ha Hm. unfold in_int16 in Ha.
  assert (Hne : angle <> -32768) by (intros ->; apply Hm; reflexivity).
  rewrite !trig_index_div by (unfold in_int16; lia).
  Z.to_euclidean_division_equations. lia.
Qed.

Lemma trig_at_index_quarter (u : Z) :
  0 <= u < 1024 ->
  trig_at_index ((u + 256) mod 1024) = trig_map quarter_turn (trig_at_index u).
Proof.
  intros Hu. apply trig_eqb_eq.
  assert (Hall : forallb
            (fun v => trig_eqb (trig_at_index ((v + 256) mod 1024))
                               (trig_map quarter_turn (trig_at_index v)))
            (Z_below 1024) = true) by (vm_compute; reflexivity).
  exact (Z_below_forallb _ _ Hall u Hu).
Qed.

Lemma trig_at_index_half (u : Z) :
  0 <= u < 1024 ->
  trig_at_index ((u + 512) mod 1024) = trig_map half_turn (trig_at_index u).
Proof.
  intros Hu. apply trig_eqb_eq.
  assert (Hall : forallb
            (fun v => trig_eqb (trig_at_index ((v + 512) mod 1024))
                               (trig_map half_turn (trig_at_index v)))
            (Z_below 1024) = true) by (vm_compute; reflexivity).
  exact (Z_below_forallb _ _ Hall u Hu).
Qed.

Lemma trig_at_index_mirror (u : Z) :
  0 <= u < 1024 ->
  trig_at_index (1023 - u) = trig_map reflect (trig_at_index u).
Proof.
  intros Hu. apply trig_eqb_eq.
  assert (Hall : forallb
            (fun v => trig_eqb (trig_at_index (1023 - v))
                               (trig_map reflect (trig_at_index v)))
            (Z_below 1024) = true) by (vm_compute; reflexivity).
  exact (Z_below_forallb _ _ Hall u Hu).
Qed.

Lemma trig_at_index_norm2 (u : Z) (tc : trig_components_t) :
  0 <= u < 1024 -> trig_at_index u = Some tc ->
  1067058425 <= norm2 tc <= 1073610756.
Proof.
  intros Hu Htc.
  assert (Hall : forallb
            (fun v => match trig_at_index v with
                      | Some t => (1067058425 <=? norm2 t) && (norm2 t <=? 1073610756)
                      | None => false
                      end)
            (Z_below 1024) = true) by (vm_compute; reflexivity).
  pose proof (Z_below_forallb _ _ Hall u Hu) as H. cbv beta in H.
  rewrite Htc in H. apply andb_true_iff in H. destruct H as [H1 H2].
  apply Z.leb_le in H1, H2. lia.
Qed.

Lemma lw_math_trig_functions_norm2 (angle : Z) (tc : trig_components_t) :
  in_int16 angle -> lw_math_trig_functions angle = Some tc ->
  1067058425 <= norm2 tc <= 1073610756.
Proof.
  intros Ha Htc. rewrite lw_math_trig_functions_at_index in Htc.
  exact (trig_at_index_norm2 _ tc (trig_index_range angle Ha) Htc).
Qed.

Lemma lw_math_trig_functions_half_turn (angle : Z) (tc : trig_components_t) :
  in_int16 angle -> lw_math_trig_functions angle = Some tc ->
  lw_math_trig_functions (int16 (angle + 32768)) = Some (half_turn tc).
Proof.
  intros Ha Htc.
  rewrite lw_math_trig_functions_at_index in *.
  rewrite (trig_index_shift angle 512 Ha ltac:(lia)
            : trig_index (int16 (angle + 32768)) = _).
  rewrite trig_at_index_half by (apply trig_index_range; trivial).
  rewrite Htc. reflexivity.
Qed.

End TrigSymmetry.

(** X11: a quarter turn (16384, added with 16-bit wrap-around) maps
    (cos, sin) to (-sin, cos), and a half turn (32768) maps it to
    (-cos, -sin), exactly and for every angle. *)
Theorem trig_quarter_and_half_turn (angle : Z) :
  in_int16 angle ->
  exists tc,
    lw_math_trig_functions angle = Some tc /\
    lw_math_trig_functions (int16 (angle + 16384)) =
      Some {| cos := - sin tc; sin := cos tc |} /\
    lw_math_trig_functions (int16 (angle + 32768)) =
      Some {| cos := - cos tc; sin := - sin tc |}.
Proof.
  intros Ha.
  destruct (lw_math_trig_functions_bounded angle Ha) as (tc & Htc & _).
  exists tc. split; [exact Htc|].
  pose proof (trig_index_range angle Ha) as Hu.
  split.
  - rewrite lw_math_trig_functions_at_index in *.
    rewrite (trig_index_shift angle 256 Ha ltac:(lia)
              : trig_index (int16 (angle + 16384)) = _).
    rewrite trig_at_index_quarter by trivial. rewrite Htc. reflexivity.
  - exact (lw_math_trig_functions_half_turn angle tc Ha Htc).
Qed.

Lemma trig_quarter_and_half_turn_witness :
  in_int16 30000 /\
  exists tc,
    lw_math_trig_functions 30000 = Some tc /\
    lw_math_trig_functions (int16 (30000 + 16384)) =
      Some {| cos := - sin tc; sin := cos tc |}.
Proof.
  assert (H : in_int16 30000) by (unfold in_int16; lia).
  split; [exact H|].
  destruct (trig_quarter_and_half_turn 30000 H) as (tc & Htc & Hq & _).
  exists tc. auto.
Defined.

(** X12: for every angle that is not a multiple of 64 (the table step), the
    cosine is even and the sine is odd: the evaluator at -angle returns
    (cos, -sin). *)
Theorem trig_negated_angle (angle : Z) :
  in_int16 angle -> angle mod 64 <> 0 ->
  exists tc,
    lw_math_trig_functions angle = Some tc /\
    lw_math_trig_functions (- angle) = Some {| cos := cos tc; sin := - sin tc |}.
Proof.
  intros Ha Hm.
  destruct (lw_math_trig_functions_bounded angle Ha) as (tc & Htc & _).
  exists tc. split; [exact Htc|].
  rewrite lw_math_trig_functions_at_index in *.
  rewrite trig_index_neg by trivial.
  rewrite trig_at_index_mirror by (apply trig_index_range; trivial).
  rewrite Htc. reflexivity.
Qed.

Lemma trig_negated_angle_witness :
  in_int16 12345 /\ 12345 mod 64 <> 0 /\
  exists tc,
    lw_math_trig_functions 12345 = Some tc /\
    lw_math_trig_functions (- 12345) = Some {| cos := cos tc; sin := - sin tc |}.
Proof.
  assert (H : in_int16 12345) by (unfold in_int16; lia).
  assert (Hm : 12345 mod 64 <> 0) by (vm_compute; discriminate).
  split; [exact H|]. split; [exact Hm|].
  exact (trig_negated_angle 12345 H Hm).
Defined.

(** X13: for every angle the squared length cos^2 + sin^2 of the result
    lies between 1067058425 and 1073610756 = 32766^2: it never reaches
    2^30, and falls short of it by at most 0.63 percent. *)
Theorem trig_norm_bounds (angle : Z) :
  in_int16 angle ->
  exists tc,
    lw_math_trig_functions angle = Some tc /\
    1067058425 <= cos tc * cos tc + sin tc * sin tc <= 1073610756 /\
    cos tc * cos tc + sin tc * sin tc < 2 ^ 30.
Proof.
  intros Ha.
  destruct (lw_math_trig_functions_bounded angle Ha) as (tc & Htc & _).
  exists tc. split; [exact Htc|].
  pose proof (lw_math_trig_functions_norm2 angle tc Ha Htc) as Hn.
  unfold norm2 in Hn. change (2 ^ 30) with 1073741824. lia.
Qed.

Lemma trig_norm_bounds_witness :
  in_int16 8192 /\
  exists tc,
    lw_math_trig_functions 8192 = Some tc /\
    1067058425 <= cos tc * cos tc + sin tc * sin tc <= 1073610756.
Proof.
  assert (H : in_int16 8192) by (unfold in_int16; lia).
  split; [exact H|].
  destruct (trig_norm_bounds 8192 H) as (tc & Htc & Hn & _).
  exists tc. auto.
Defined.

Section TrigMonotone.

Lemma monotone_from_steps (f : Z -> Z) (lo hi : Z) :
  (forall u, lo <= u < hi -> f u <= f (u + 1)) ->
  forall u v, lo <= u -> u <= v -> v <= hi -> f u <= f v.
Proof.
  intros Hstep u v Hlo Huv Hhi.
  replace v with (u + Z.of_nat (Z.to_nat (v - u))) in * by lia.
  induction (Z.to_nat (v - u)) as [|n IH].
  - rewrite Z.add_0_r. lia.
  - rewrite Nat2Z.inj_succ in *. unfold Z.succ in *.
    transitivity (f (u + Z.of_nat n)); [apply IH; lia|].
    rewrite Z.add_assoc. apply Hstep. lia.
Qed.

Lemma sin_at_steps (u : Z) : 256 <= u < 767 -> sin_at u <= sin_at (u + 1).
Proof.
  intros Hu.
  assert (Hall : forallb
            (fun v => (v <? 256) || (767 <=? v) || (sin_at v <=? sin_at (v + 1)))
            (Z_below 1024) = true) by (vm_compute; reflexivity).
  pose proof (Z_below_forallb _ _ Hall u ltac:(lia)) as H. cbv beta in H.
  destruct (Z.ltb_spec u 256); [lia|]. destruct (Z.leb_spec 767 u); [lia|].
  cbn [orb] in H. now apply Z.leb_le.
Qed.

Lemma cos_at_steps (u : Z) : 512 <= u < 1023 -> - cos_at u <= - cos_at (u + 1).
Proof.
  intros Hu.
  assert (Hall : forallb
            (fun v => (v <? 512) || (1023 <=? v) || (cos_at (v + 1) <=? cos_at v))
            (Z_below 1024) = true) by (vm_compute; reflexivity).
  pose proof (Z_below_forallb _ _ Hall u ltac:(lia)) as H. cbv beta in H.
  destruct (Z.ltb_spec u 512); [lia|]. destruct (Z.leb_spec 1023 u); [lia|].
  cbn [orb] in H. apply Z.leb_le in H. lia.
Qed.

Lemma trig_index_mono (x y : Z) :
  in_int16 x -> in_int16 y -> x <= y -> trig_index x <= trig_index y.
Proof.
  intros Hx Hy Hxy. rewrite !trig_index_div by trivial.
  apply Z.div_le_mono; lia.
Qed.

End TrigMonotone.

(** X14: the sine is non-decreasing over the angles from -16384 to 16383
    (the rising half wave) and the cosine is non-increasing over the angles
    from 0 to 32767 (the falling half wave): the table is sorted and the
    quadrant seams keep the order. *)
Theorem trig_half_wave_monotone (x y : Z) :
  in_int16 x -> in_int16 y -> x <= y ->
  exists tx ty,
    lw_math_trig_functions x = Some tx /\
    lw_math_trig_functions y = Some ty /\
    (-16384 <= x -> y <= 16383 -> sin tx <= sin ty) /\
    (0 <= x -> cos ty <= cos tx).
Proof.
  intros Hx Hy Hxy.
  destruct (lw_math_trig_functions_bounded x Hx) as (tx & Htx & _).
  destruct (lw_math_trig_functions_bounded y Hy) as (ty & Hty & _).
  exists tx, ty. split; [exact Htx|]. split; [exact Hty|].
  pose proof (trig_index_mono x y Hx Hy Hxy) as Hidx.
  pose proof (trig_index_range y Hy) as Huy.
  rewrite lw_math_trig_functions_at_index in Htx, Hty.
  assert (Hsx : sin tx = sin_at (trig_index x)) by (unfold sin_at; now rewrite Htx).
  assert (Hsy : sin ty = sin_at (trig_index y)) by (unfold sin_at; now rewrite Hty).
  assert (Hcx : cos tx = cos_at (trig_index x)) by (unfold cos_at; now rewrite Htx).
  assert (Hcy : cos ty = cos_at (trig_index y)) by (unfold cos_at; now rewrite Hty).
  unfold in_int16 in Hx, Hy.
  split.
  - intros Hlo Hhi. rewrite Hsx, Hsy.
    apply (monotone_from_steps sin_at 256 767 sin_at_steps); trivial.
    + rewrite trig_index_div by (unfold in_int16; lia).
      apply Z.div_le_lower_bound; lia.
    + rewrite trig_index_div by (unfold in_int16; lia).
      apply Z.lt_succ_r, Z.div_lt_upper_bound; lia.
  - intros Hlo. rewrite Hcx, Hcy.
    apply Z.opp_le_mono.
    apply (monotone_from_steps (fun u => - cos_at u) 512 1023 cos_at_steps);
      trivial; [|lia].
    rewrite trig_index_div by (unfold in_int16; lia).
    apply Z.div_le_lower_bound; lia.
Qed.

Lemma trig_half_wave_monotone_witness :
  in_int16 (-5000) /\ in_int16 7000 /\ -5000 <= 7000 /\
  exists tx ty,
    lw_math_trig_functions (-5000) = Some tx /\
    lw_math_trig_functions 7000 = Some ty /\
    sin tx <= sin ty.
Proof.
  assert (Hx : in_int16 (-5000)) by (unfold in_int16; lia).
  assert (Hy : in_int16 7000) by (unfold in_int16; lia).
  assert (Hxy : -5000 <= 7000) by lia.
  split; [exact Hx|]. split; [exact Hy|]. split; [exact Hxy|].
  destruct (trig_half_wave_monotone (-5000) 7000 Hx Hy Hxy)
    as (tx & ty & Htx & Hty & Hs & _).
  exists tx, ty. split; [exact Htx|]. split; [exact Hty|]. apply Hs; lia.
Defined.

(** ** Further properties of the saturation block and of the transforms *)

Section SaturationMore.

Lemma saturate_nudge_cases (z : Z) :
  (32767 <= z /\ saturate_nudge z = 32767) \/
  (z <= -32767 /\ saturate_nudge z = -32767) \/
  (-32767 < z < 32767 /\ saturate_nudge z = z).
Proof.
  unfold saturate_nudge, nudge_min, clamp_s16.
  destruct (Z.eqb_spec (Z.max (-32768) (Z.min 32767 z)) (-32768)); lia.
Qed.

Lemma saturate_nudge_odd (z : Z) : saturate_nudge (- z) = - saturate_nudge z.
Proof.
  destruct (saturate_nudge_cases z) as [[? ->]|[[? ->]|[? ->]]];
    destruct (saturate_nudge_cases (- z)) as [[? ->]|[[? ->]|[? ->]]]; lia.
Qed.

Lemma saturate_nudge_mono (z w : Z) :
  z <= w -> saturate_nudge z <= saturate_nudge w.
Proof.
  intros Hzw.
  destruct (saturate_nudge_cases z) as [[? ->]|[[? ->]|[? ->]]];
    destruct (saturate_nudge_cases w) as [[? ->]|[[? ->]|[? ->]]]; lia.
Qed.

Lemma saturate_nudge_square (z : Z) :
  saturate_nudge z * saturate_nudge z <= z * z.
Proof.
  destruct (saturate_nudge_cases z) as [[? ->]|[[? ->]|[? ->]]]; nia.
Qed.

Lemma quot_32768_square (z : Z) :
  1073741824 * ((z ÷ 32768) * (z ÷ 32768)) <= z * z.
Proof.
  destruct (Z.le_gt_cases 0 z) as [Hz|Hz].
  - pose proof (Z.mul_quot_le z 32768 Hz ltac:(lia)).
    pose proof (Z.quot_pos z 32768 Hz ltac:(lia)). nia.
  - pose proof (Z.mul_quot_ge z 32768 ltac:(lia) ltac:(lia)).
    assert (z ÷ 32768 <= 0) by (apply Z.quot_le_upper_bound; lia). nia.
Qed.

(** The sum of the two quotients' squares is bounded by the scaled sum of
    the dividends' squares, through saturation and nudge. *)
Lemma rescaled_square (z : Z) :
  1073741824 * (saturate_nudge (z ÷ 32768) * saturate_nudge (z ÷ 32768))
  <= z * z.
Proof.
  pose proof (saturate_nudge_square (z ÷ 32768)).
  pose proof (quot_32768_square z). lia.
Qed.

Lemma lw_math_clarke_beta (va vb : Z) :
  in_int16 va -> in_int16 vb ->
  lw_math_clarke {| a := va; b := vb |} =
    {| alpha := va;
       beta := saturate_nudge ((- (18918 * (va + 2 * vb))) ÷ 32768) |}.
Proof.
  intros Ha Hb. unfold lw_math_clarke, divSQRT_3. cbn [a b].
  rewrite saturate_nudge_eq. unfold in_int16 in Ha, Hb.
  unwrap.
  rewrite (int32_small (_ ÷ _)) by (apply quot_32768_int32; range_side).
  do 3 f_equal. lia.
Qed.

End SaturationMore.

(** X15: [lw_math_clarke] is odd: negating both inputs (neither being
    -32768, whose negation is not a 16-bit value) negates both outputs
    exactly, through truncation, saturation and the nudge. *)
Theorem clarke_odd (va vb : Z) :
  in_int16 va -> in_int16 vb -> va <> -32768 -> vb <> -32768 ->
  lw_math_clarke {| a := - va; b := - vb |} =
    {| alpha := - alpha (lw_math_clarke {| a := va; b := vb |});
       beta := - beta (lw_math_clarke {| a := va; b := vb |}) |}.
Proof.
  intros Ha Hb Hna Hnb. unfold in_int16 in Ha, Hb.
  rewrite !lw_math_clarke_beta by (unfold in_int16; lia).
  cbn [alpha beta]. f_equal.
  rewrite <- saturate_nudge_odd, <- Z.quot_opp_l by lia.
  do 2 f_equal. lia.
Qed.

Lemma clarke_odd_witness :
  in_int16 20000 /\ in_int16 (-32767) /\ 20000 <> -32768 /\ -32767 <> -32768 /\
  lw_math_clarke {| a := - 20000; b := - -32767 |} =
    {| alpha := - alpha (lw_math_clarke {| a := 20000; b := -32767 |});
       beta := - beta (lw_math_clarke {| a := 20000; b := -32767 |}) |}.
Proof.
  assert (Ha : in_int16 20000) by (unfold in_int16; lia).
  assert (Hb : in_int16 (-32767)) by (unfold in_int16; lia).
  assert (Hna : 20000 <> -32768) by lia.
  assert (Hnb : -32767 <> -32768) by lia.
  split; [exact Ha|]. split; [exact Hb|]. split; [exact Hna|]. split; [exact Hnb|].
  exact (clarke_odd 20000 (-32767) Ha Hb Hna Hnb).
Defined.

(** X16: the beta output of [lw_math_clarke] saturates exactly when
    |a + 2b| >= 56756: it is 32767 iff a + 2b <= -56756 and -32767 iff
    a + 2b >= 56756; strictly between, it is the truncated quotient itself. *)
Theorem clarke_saturation_threshold (va vb : Z) :
  in_int16 va -> in_int16 vb ->
  let out := lw_math_clarke {| a := va; b := vb |} in
  (beta out = 32767 <-> va + 2 * vb <= -56756) /\
  (beta out = -32767 <-> 56756 <= va + 2 * vb) /\
  (-56756 < va + 2 * vb < 56756 ->
   beta out = (- (18918 * (va + 2 * vb))) ÷ 32768).
Proof.
  intros Ha Hb out. unfold out.
  rewrite lw_math_clarke_beta by trivial. cbn [beta].
  set (s := va + 2 * vb).
  destruct (saturate_nudge_cases ((- (18918 * s)) ÷ 32768))
    as [[Hr ->]|[[Hr ->]|[Hr ->]]];
    revert Hr; Z.to_euclidean_division_equations; lia.
Qed.

Lemma clarke_saturation_threshold_witness :
  in_int16 (-32768) /\ in_int16 (-12000) /\
  beta (lw_math_clarke {| a := -32768; b := -12000 |}) = 32767.
Proof.
  assert (Ha : in_int16 (-32768)) by (unfold in_int16; lia).
  assert (Hb : in_int16 (-12000)) by (unfold in_int16; lia).
  split; [exact Ha|]. split; [exact Hb|].
  destruct (clarke_saturation_threshold (-32768) (-12000) Ha Hb) as ([_ Hsat] & _).
  apply Hsat. lia.
Defined.

(** X17: the beta output of [lw_math_clarke] is non-increasing in each
    input. *)
Theorem clarke_beta_antitone (va vb va' vb' : Z) :
  in_int16 va -> in_int16 vb -> in_int16 va' -> in_int16 vb' ->
  va <= va' -> vb <= vb' ->
  beta (lw_math_clarke {| a := va'; b := vb' |})
  <= beta (lw_math_clarke {| a := va; b := vb |}).
Proof.
  intros Ha Hb Ha' Hb' Hla Hlb.
  rewrite !lw_math_clarke_beta by trivial. cbn [beta].
  apply saturate_nudge_mono, Z.quot_le_mono; lia.
Qed.

Lemma clarke_beta_antitone_witness :
  in_int16 (-100) /\ in_int16 50 /\ in_int16 700 /\ in_int16 51 /\
  beta (lw_math_clarke {| a := 700; b := 51 |})
  <= beta (lw_math_clarke {| a := -100; b := 50 |}).
Proof.
  assert (H1 : in_int16 (-100)) by (unfold in_int16; lia).
  assert (H2 : in_int16 50) by (unfold in_int16; lia).
  assert (H3 : in_int16 700) by (unfold in_int16; lia).
  assert (H4 : in_int16 51) by (unfold in_int16; lia).
  split; [exact H1|]. split; [exact H2|]. split; [exact H3|]. split; [exact H4|].
  apply (clarke_beta_antitone (-100) 50 700 51 H1 H2 H3 H4); lia.
Defined.

(** ** Rotation by a table vector, rescaled by 2^15 *)

Section Rotation.

Variables x y c s : Z.

Hypothesis table_vector : c * c + s * s <= 1073610756.

Lemma rotation_squares :
  (x * c - y * s) * (x * c - y * s) + (x * s + y * c) * (x * s + y * c)
  = (x * x + y * y) * (c * c + s * s).
Proof. ring. Qed.

Lemma square_below (z k : Z) : 0 <= k -> z * z < k * k -> - k < z < k.
Proof. intros Hk Hz. nia. Qed.

Lemma quot_32768_small (z : Z) :
  -1073741824 < z < 1073741824 -> -32767 <= z ÷ 32768 <= 32767.
Proof. intros Hz. Z.to_euclidean_division_equations. lia. Qed.

(** A vector no longer than 32767 is rotated without reaching the
    saturation limits. *)
Lemma rotation_in_range :
  x * x + y * y <= 1073676289 ->
  -32767 <= (x * c - y * s) ÷ 32768 <= 32767 /\
  -32767 <= (x * s + y * c) ÷ 32768 <= 32767.
Proof.
  intros Hlen.
  pose proof rotation_squares as Hrot.
  pose proof (Z.square_nonneg (x * c - y * s)) as HA.
  pose proof (Z.square_nonneg (x * s + y * c)) as HB.
  assert (Hprod : (x * x + y * y) * (c * c + s * s)
                  <= 1073676289 * 1073610756).
  { apply Z.mul_le_mono_nonneg; trivial; nia. }
  split; apply quot_32768_small;
    apply (square_below _ 1073741824); lia.
Qed.

(** Rotation and rescaling never lengthen a vector. *)
Lemma rotation_shortens (q' d' : Z) :
  1073741824 * (q' * q') <= (x * c - y * s) * (x * c - y * s) ->
  1073741824 * (d' * d') <= (x * s + y * c) * (x * s + y * c) ->
  q' * q' + d' * d' <= x * x + y * y.
Proof.
  intros Hq Hd.
  pose proof rotation_squares as Hrot.
  assert (Hprod : (x * x + y * y) * (c * c + s * s)
                  <= (x * x + y * y) * 1073741824).
  { apply Z.mul_le_mono_nonneg_l; [nia | lia]. }
  lia.
Qed.

End Rotation.

Section RoundTrip.

Lemma rem_32768 (z : Z) :
  exists r, z = 32768 * (z ÷ 32768) + r /\ -32767 <= r <= 32767.
Proof.
  exists (z - 32768 * (z ÷ 32768)). split; [lia|].
  Z.to_euclidean_division_equations. lia.
Qed.

Lemma remainder_product (r c : Z) :
  -32767 <= r <= 32767 -> -32766 <= c <= 32766 ->
  -1073643522 <= r * c <= 1073643522.
Proof. intros Hr Hc. nia. Qed.

Lemma deficit_product (x n : Z) :
  -32767 <= x <= 32767 -> 1067058425 <= n <= 1073610756 ->
  -218994935033 <= x * (n - 1073741824) <= 218994935033.
Proof. intros Hx Hn. nia. Qed.

(** If 2^15 * t is x * n up to the two remainder products, then t / 2^15
    is x up to 206. *)
Lemma rescale_error (x n e t : Z) :
  -32767 <= x <= 32767 -> 1067058425 <= n <= 1073610756 ->
  -2147287044 <= e <= 2147287044 ->
  32768 * t = x * n - e ->
  -206 <= t ÷ 32768 - x <= 206.
Proof.
  intros Hx Hn He Ht.
  destruct (rem_32768 t) as (r & Hr & Hrb).
  pose proof (deficit_product x n Hx Hn) as Hd.
  set (k := t ÷ 32768) in *. clearbody k.
  replace (x * n) with (x * (n - 1073741824) + 1073741824 * x) in Ht by ring.
  set (dp := x * (n - 1073741824)) in *. clearbody dp.
  lia.
Qed.

(** Rotating forward and back, each time with truncation, returns each
    component up to 206. *)
Lemma rotation_round_trip (x y c s : Z) :
  x * x + y * y <= 1073676289 ->
  -32766 <= c <= 32766 -> -32766 <= s <= 32766 ->
  1067058425 <= c * c + s * s <= 1073610756 ->
  let q' := (x * c - y * s) ÷ 32768 in
  let d' := (x * s + y * c) ÷ 32768 in
  -206 <= (q' * c + d' * s) ÷ 32768 - x <= 206 /\
  -206 <= (d' * c - q' * s) ÷ 32768 - y <= 206.
Proof.
  intros Hlen Hc Hs Hn q' d'.
  assert (Hx : -32767 <= x <= 32767) by nia.
  assert (Hy : -32767 <= y <= 32767) by nia.
  destruct (rem_32768 (x * c - y * s)) as (ra & Hra & Hrab).
  destruct (rem_32768 (x * s + y * c)) as (rb & Hrb & Hrbb).
  fold q' in Hra. fold d' in Hrb.
  pose proof (remainder_product ra c Hrab Hc) as Hac.
  pose proof (remainder_product ra s Hrab Hs) as Has.
  pose proof (remainder_product rb c Hrbb Hc) as Hbc.
  pose proof (remainder_product rb s Hrbb Hs) as Hbs.
  split.
  - apply (rescale_error x (c * c + s * s) (ra * c + rb * s)); trivial; [lia|].
    replace (32768 * (q' * c + d' * s))
      with ((32768 * q') * c + (32768 * d') * s) by ring.
    replace (32768 * q') with (x * c - y * s - ra) by lia.
    replace (32768 * d') with (x * s + y * c - rb) by lia.
    ring.
  - apply (rescale_error y (c * c + s * s) (rb * c - ra * s)); trivial; [lia|].
    replace (32768 * (d' * c - q' * s))
      with ((32768 * d') * c - (32768 * q') * s) by ring.
    replace (32768 * q') with (x * c - y * s - ra) by lia.
    replace (32768 * d') with (x * s + y * c - rb) by lia.
    ring.
Qed.

End RoundTrip.

Section TransformValues.

Lemma lw_math_park_value (valpha vbeta theta : Z) (tc : trig_components_t) :
  in_int16 valpha -> in_int16 vbeta -> in_int16 theta ->
  lw_math_trig_functions theta = Some tc ->
  lw_math_park {| alpha := valpha; beta := vbeta |} theta =
    Some {| q := saturate_nudge ((valpha * cos tc - vbeta * sin tc) ÷ 32768);
            d := saturate_nudge ((valpha * sin tc + vbeta * cos tc) ÷ 32768) |}.
Proof.
  intros Ha Hb Ht Htc.
  destruct (lw_math_trig_functions_bounded theta Ht) as (tc' & Htc' & Hc & Hs).
  rewrite Htc in Htc'. injection Htc' as <-.
  pose proof (amplitude_product_bound valpha (cos tc) Ha Hc) as Hac.
  pose proof (amplitude_product_bound vbeta (sin tc) Hb Hs) as Hbs.
  pose proof (amplitude_product_bound valpha (sin tc) Ha Hs) as Has.
  pose proof (amplitude_product_bound vbeta (cos tc) Hb Hc) as Hbc.
  unfold lw_math_park. rewrite Htc. cbn [bind alpha beta].
  rewrite !saturate_nudge_eq.
  rewrite (int32_small (cos tc)), (int32_small (sin tc)) by range_side.
  rewrite (int32_small (valpha * cos tc)), (int32_small (vbeta * sin tc)),
    (int32_small (valpha * sin tc)), (int32_small (vbeta * cos tc))
    by range_side.
  rewrite (int32_small (valpha * cos tc - vbeta * sin tc)) by range_side.
  rewrite (int32_small (valpha * sin tc + vbeta * cos tc)) by range_side.
  rewrite !(int32_small (_ ÷ _)) by (apply quot_32768_int32; range_side).
  reflexivity.
Qed.

Lemma lw_math_rev_park_value (vq vd theta : Z) (tc : trig_components_t) :
  in_int16 vq -> in_int16 vd -> in_int16 theta ->
  lw_math_trig_functions theta = Some tc ->
  lw_math_rev_park {| q := vq; d := vd |} theta =
    Some {| alpha := int16 ((vq * cos tc + vd * sin tc) ÷ 32768);
            beta := int16 ((vd * cos tc - vq * sin tc) ÷ 32768) |}.
Proof.
  intros Hq Hd Ht Htc.
  destruct (lw_math_trig_functions_bounded theta Ht) as (tc' & Htc' & Hc & Hs).
  rewrite Htc in Htc'. injection Htc' as <-.
  pose proof (amplitude_product_bound vq (cos tc) Hq Hc) as Hqc.
  pose proof (amplitude_product_bound vd (sin tc) Hd Hs) as Hds.
  pose proof (amplitude_product_bound vq (sin tc) Hq Hs) as Hqs.
  pose proof (amplitude_product_bound vd (cos tc) Hd Hc) as Hdc.
  unfold lw_math_rev_park. rewrite Htc. cbn [bind q d].
  rewrite (int32_small (cos tc)), (int32_small (sin tc)) by range_side.
  rewrite (int32_small (vq * cos tc)), (int32_small (vd * sin tc)),
    (int32_small (vq * sin tc)), (int32_small (vd * cos tc)) by range_side.
  rewrite (int32_small (vq * cos tc + vd * sin tc)) by range_side.
  rewrite (int32_small (vd * cos tc - vq * sin tc)) by range_side.
  rewrite !(int32_small (_ ÷ _)) by (apply quot_32768_int32; range_side).
  reflexivity.
Qed.

Lemma saturate_nudge_small (z : Z) :
  -32767 <= z <= 32767 -> saturate_nudge z = z.
Proof.
  intros Hz. destruct (saturate_nudge_cases z) as [[? ->]|[[? ->]|[? ->]]]; lia.
Qed.

(** Inside the circle of radius 32767 the Park transform does not
    saturate. *)
Lemma lw_math_park_in_circle (valpha vbeta theta : Z) (tc : trig_components_t) :
  in_int16 valpha -> in_int16 vbeta -> in_int16 theta ->
  lw_math_trig_functions theta = Some tc ->
  len2 valpha vbeta <= 1073676289 ->
  lw_math_park {| alpha := valpha; beta := vbeta |} theta =
    Some {| q := (valpha * cos tc - vbeta * sin tc) ÷ 32768;
            d := (valpha * sin tc + vbeta * cos tc) ÷ 32768 |} /\
  -32767 <= (valpha * cos tc - vbeta * sin tc) ÷ 32768 <= 32767 /\
  -32767 <= (valpha * sin tc + vbeta * cos tc) ÷ 32768 <= 32767.
Proof.
  intros Ha Hb Ht Htc Hlen. unfold len2 in Hlen.
  pose proof (lw_math_trig_functions_norm2 theta tc Ht Htc) as Hn.
  unfold norm2 in Hn.
  destruct (rotation_in_range valpha vbeta (cos tc) (sin tc)
              ltac:(lia) Hlen) as [Hq Hd].
  rewrite (lw_math_park_value valpha vbeta theta tc) by trivial.
  rewrite !saturate_nudge_small by trivial. auto.
Qed.

(** Inside the circle of radius 32767 the reverse Park transform does not
    wrap. *)
Lemma lw_math_rev_park_in_circle (vq vd theta : Z) (tc : trig_components_t) :
  in_int16 vq -> in_int16 vd -> in_int16 theta ->
  lw_math_trig_functions theta = Some tc ->
  len2 vq vd <= 1073676289 ->
  lw_math_rev_park {| q := vq; d := vd |} theta =
    Some {| alpha := (vq * cos tc + vd * sin tc) ÷ 32768;
            beta := (vd * cos tc - vq * sin tc) ÷ 32768 |} /\
  -32767 <= (vq * cos tc + vd * sin tc) ÷ 32768 <= 32767 /\
  -32767 <= (vd * cos tc - vq * sin tc) ÷ 32768 <= 32767.
Proof.
  intros Hq Hd Ht Htc Hlen. unfold len2 in Hlen.
  pose proof (lw_math_trig_functions_norm2 theta tc Ht Htc) as Hn.
  unfold norm2 in Hn.
  destruct (rotation_in_range vq vd (cos tc) (- sin tc)
              ltac:(lia) Hlen) as [Ha Hb].
  replace (vq * cos tc - vd * - sin tc) with (vq * cos tc + vd * sin tc)
    in Ha by ring.
  replace (vq * - sin tc + vd * cos tc) with (vd * cos tc - vq * sin tc)
    in Hb by ring.
  rewrite (lw_math_rev_park_value vq vd theta tc) by trivial.
  rewrite !int16_small by range_side. auto.
Qed.

End TransformValues.

(** X18: [lw_math_park] changes the sign of both outputs, exactly, when the
    angle advances by a half turn (32768, with 16-bit wrap-around) and when
    both inputs are negated (neither being -32768). *)
Theorem park_negation (valpha vbeta theta : Z) :
  in_int16 valpha -> in_int16 vbeta -> in_int16 theta ->
  exists out,
    lw_math_park {| alpha := valpha; beta := vbeta |} theta = Some out /\
    lw_math_park {| alpha := valpha; beta := vbeta |} (int16 (theta + 32768)) =
      Some {| q := - q out; d := - d out |} /\
    (valpha <> -32768 -> vbeta <> -32768 ->
     lw_math_park {| alpha := - valpha; beta := - vbeta |} theta =
       Some {| q := - q out; d := - d out |}).
Proof.
  intros Ha Hb Ht.
  destruct (lw_math_trig_functions_bounded theta Ht) as (tc & Htc & _).
  pose proof (lw_math_trig_functions_half_turn theta tc Ht Htc) as Hhalf.
  eexists. split; [apply (lw_math_park_value _ _ _ tc); trivial|].
  cbn [q d]. split.
  - rewrite (lw_math_park_value _ _ _ (half_turn tc));
      trivial; [|apply int16_wrap_range].
    cbn [half_turn cos sin].
    rewrite <- !saturate_nudge_odd, <- !Z.quot_opp_l by lia.
    do 2 f_equal; do 2 f_equal; ring.
  - intros Hna Hnb. unfold in_int16 in Ha, Hb.
    rewrite (lw_math_park_value _ _ _ tc) by (trivial; unfold in_int16; lia).
    rewrite <- !saturate_nudge_odd, <- !Z.quot_opp_l by lia.
    do 2 f_equal; do 2 f_equal; ring.
Qed.

Lemma park_negation_witness :
  in_int16 12000 /\ in_int16 (-32768) /\ in_int16 20000 /\
  exists out,
    lw_math_park {| alpha := 12000; beta := -32768 |} 20000 = Some out /\
    lw_math_park {| alpha := 12000; beta := -32768 |} (int16 (20000 + 32768)) =
      Some {| q := - q out; d := - d out |}.
Proof.
  assert (Ha : in_int16 12000) by (unfold in_int16; lia).
  assert (Hb : in_int16 (-32768)) by (unfold in_int16; lia).
  assert (Ht : in_int16 20000) by (unfold in_int16; lia).
  split; [exact Ha|]. split; [exact Hb|]. split; [exact Ht|].
  destruct (park_negation 12000 (-32768) 20000 Ha Hb Ht) as (out & Hout & Hhalf & _).
  exists out. auto.
Defined.

(** X19: [lw_math_park] never lengthens a vector: for all inputs and every
    angle, q^2 + d^2 <= alpha^2 + beta^2. *)
Theorem park_never_lengthens (valpha vbeta theta : Z) :
  in_int16 valpha -> in_int16 vbeta -> in_int16 theta ->
  exists out,
    lw_math_park {| alpha := valpha; beta := vbeta |} theta = Some out /\
    q out * q out + d out * d out <= valpha * valpha + vbeta * vbeta.
Proof.
  intros Ha Hb Ht.
  destruct (lw_math_trig_functions_bounded theta Ht) as (tc & Htc & _).
  pose proof (lw_math_trig_functions_norm2 theta tc Ht Htc) as Hn.
  unfold norm2 in Hn.
  eexists. split; [apply (lw_math_park_value _ _ _ tc); trivial|].
  cbn [q d].
  apply (rotation_shortens valpha vbeta (cos tc) (sin tc) ltac:(lia));
    apply rescaled_square.
Qed.

Lemma park_never_lengthens_witness :
  in_int16 32767 /\ in_int16 (-32768) /\ in_int16 8192 /\
  exists out,
    lw_math_park {| alpha := 32767; beta := -32768 |} 8192 = Some out /\
    q out * q out + d out * d out <= 32767 * 32767 + -32768 * -32768.
Proof.
  assert (Ha : in_int16 32767) by (unfold in_int16; lia).
  assert (Hb : in_int16 (-32768)) by (unfold in_int16; lia).
  assert (Ht : in_int16 8192) by (unfold in_int16; lia).
  split; [exact Ha|]. split; [exact Hb|]. split; [exact Ht|].
  exact (park_never_lengthens 32767 (-32768) 8192 Ha Hb Ht).
Defined.

(** X20: on a vector of length at most 32767 [lw_math_park] does not
    saturate: both outputs are the truncated quotients themselves and lie
    in [-32767, 32767]. *)
Theorem park_unsaturated_in_circle (valpha vbeta theta : Z) :
  in_int16 valpha -> in_int16 vbeta -> in_int16 theta ->
  valpha * valpha + vbeta * vbeta <= 32767 * 32767 ->
  exists tc,
    lw_math_trig_functions theta = Some tc /\
    lw_math_park {| alpha := valpha; beta := vbeta |} theta =
      Some {| q := (valpha * cos tc - vbeta * sin tc) ÷ 32768;
              d := (valpha * sin tc + vbeta * cos tc) ÷ 32768 |} /\
    -32767 <= (valpha * cos tc - vbeta * sin tc) ÷ 32768 <= 32767 /\
    -32767 <= (valpha * sin tc + vbeta * cos tc) ÷ 32768 <= 32767.
Proof.
  intros Ha Hb Ht Hlen.
  destruct (lw_math_trig_functions_bounded theta Ht) as (tc & Htc & _).
  exists tc. split; [exact Htc|].
  apply lw_math_park_in_circle; trivial.
Qed.

Lemma park_unsaturated_in_circle_witness :
  in_int16 23000 /\ in_int16 (-23000) /\ in_int16 8192 /\
  23000 * 23000 + -23000 * -23000 <= 32767 * 32767 /\
  exists tc,
    lw_math_trig_functions 8192 = Some tc /\
    -32767 <= (23000 * cos tc - -23000 * sin tc) ÷ 32768 <= 32767.
Proof.
  assert (Ha : in_int16 23000) by (unfold in_int16; lia).
  assert (Hb : in_int16 (-23000)) by (unfold in_int16; lia).
  assert (Ht : in_int16 8192) by (unfold in_int16; lia).
  assert (Hlen : 23000 * 23000 + -23000 * -23000 <= 32767 * 32767) by lia.
  split; [exact Ha|]. split; [exact Hb|]. split; [exact Ht|]. split; [exact Hlen|].
  destruct (park_unsaturated_in_circle 23000 (-23000) 8192 Ha Hb Ht Hlen)
    as (tc & Htc & _ & Hq & _).
  exists tc. auto.
Defined.

(** X21: on a vector of length at most 32767 [lw_math_rev_park] does not
    wrap: both outputs are the truncated quotients themselves, lie in
    [-32767, 32767], and the output vector is no longer than the input. *)
Theorem rev_park_exact_in_circle (vq vd theta : Z) :
  in_int16 vq -> in_int16 vd -> in_int16 theta ->
  vq * vq + vd * vd <= 32767 * 32767 ->
  exists tc out,
    lw_math_trig_functions theta = Some tc /\
    lw_math_rev_park {| q := vq; d := vd |} theta = Some out /\
    alpha out = (vq * cos tc + vd * sin tc) ÷ 32768 /\
    beta out = (vd * cos tc - vq * sin tc) ÷ 32768 /\
    -32767 <= alpha out <= 32767 /\ -32767 <= beta out <= 32767 /\
    alpha out * alpha out + beta out * beta out <= vq * vq + vd * vd.
Proof.
  intros Hq Hd Ht Hlen.
  destruct (lw_math_trig_functions_bounded theta Ht) as (tc & Htc & _).
  pose proof (lw_math_trig_functions_norm2 theta tc Ht Htc) as Hn.
  unfold norm2 in Hn.
  destruct (lw_math_rev_park_in_circle vq vd theta tc Hq Hd Ht Htc Hlen)
    as (Hv & Ha & Hb).
  exists tc. eexists. split; [exact Htc|]. split; [exact Hv|].
  cbn [alpha beta]. repeat (split; [first [reflexivity | assumption]|]).
  apply (rotation_shortens vq vd (cos tc) (- sin tc) ltac:(lia)).
  - replace (vq * cos tc - vd * - sin tc) with (vq * cos tc + vd * sin tc) by ring.
    apply quot_32768_square.
  - replace (vq * - sin tc + vd * cos tc) with (vd * cos tc - vq * sin tc) by ring.
    apply quot_32768_square.
Qed.

Lemma rev_park_exact_in_circle_witness :
  in_int16 (-20000) /\ in_int16 25000 /\ in_int16 (-12345) /\
  -20000 * -20000 + 25000 * 25000 <= 32767 * 32767 /\
  exists tc out,
    lw_math_trig_functions (-12345) = Some tc /\
    lw_math_rev_park {| q := -20000; d := 25000 |} (-12345) = Some out /\
    alpha out = (-20000 * cos tc + 25000 * sin tc) ÷ 32768.
Proof.
  assert (Hq : in_int16 (-20000)) by (unfold in_int16; lia).
  assert (Hd : in_int16 25000) by (unfold in_int16; lia).
  assert (Ht : in_int16 (-12345)) by (unfold in_int16; lia).
  assert (Hlen : -20000 * -20000 + 25000 * 25000 <= 32767 * 32767) by lia.
  split; [exact Hq|]. split; [exact Hd|]. split; [exact Ht|]. split; [exact Hlen|].
  destruct (rev_park_exact_in_circle (-20000) 25000 (-12345) Hq Hd Ht Hlen)
    as (tc & out & Htc & Hout & Ha & _).
  exists tc, out. auto.
Defined.

(** X22: on a vector of length at most 32767, [lw_math_park] followed by
    [lw_math_rev_park] at the same angle returns each component within 206
    of the original. *)
Theorem park_rev_park_round_trip (valpha vbeta theta : Z) :
  in_int16 valpha -> in_int16 vbeta -> in_int16 theta ->
  valpha * valpha + vbeta * vbeta <= 32767 * 32767 ->
  exists mid out,
    lw_math_park {| alpha := valpha; beta := vbeta |} theta = Some mid /\
    lw_math_rev_park mid theta = Some out /\
    -206 <= alpha out - valpha <= 206 /\
    -206 <= beta out - vbeta <= 206.
Proof.
  intros Ha Hb Ht Hlen.
  destruct (lw_math_trig_functions_bounded theta Ht) as (tc & Htc & Hc & Hs).
  pose proof (lw_math_trig_functions_norm2 theta tc Ht Htc) as Hn.
  unfold norm2 in Hn.
  destruct (lw_math_park_in_circle valpha vbeta theta tc Ha Hb Ht Htc Hlen)
    as (Hpark & Hq & Hd).
  set (q' := (valpha * cos tc - vbeta * sin tc) ÷ 32768) in *.
  set (d' := (valpha * sin tc + vbeta * cos tc) ÷ 32768) in *.
  assert (Hmid : len2 q' d' <= 1073676289).
  { unfold len2.
    transitivity (valpha * valpha + vbeta * vbeta); [|lia].
    apply (rotation_shortens valpha vbeta (cos tc) (sin tc));
      [lia | apply quot_32768_square | apply quot_32768_square]. }
  destruct (lw_math_rev_park_in_circle q' d' theta tc
              ltac:(range_side) ltac:(range_side) Ht Htc Hmid)
    as (Hrev & _ & _).
  eexists. eexists. split; [exact Hpark|]. split; [exact Hrev|].
  cbn [alpha beta].
  apply (rotation_round_trip valpha vbeta (cos tc) (sin tc)); trivial; lia.
Qed.

Lemma park_rev_park_round_trip_witness :
  in_int16 (-32755) /\ in_int16 (-876) /\ in_int16 8000 /\
  -32755 * -32755 + -876 * -876 <= 32767 * 32767 /\
  exists mid out,
    lw_math_park {| alpha := -32755; beta := -876 |} 8000 = Some mid /\
    lw_math_rev_park mid 8000 = Some out /\
    -206 <= alpha out - -32755 <= 206.
Proof.
  assert (Ha : in_int16 (-32755)) by (unfold in_int16; lia).
  assert (Hb : in_int16 (-876)) by (unfold in_int16; lia).
  assert (Ht : in_int16 8000) by (unfold in_int16; lia).
  assert (Hlen : -32755 * -32755 + -876 * -876 <= 32767 * 32767) by lia.
  split; [exact Ha|]. split; [exact Hb|]. split; [exact Ht|]. split; [exact Hlen|].
  destruct (park_rev_park_round_trip (-32755) (-876) 8000 Ha Hb Ht Hlen)
    as (mid & out & Hmid & Hout & Hal & _).
  exists mid, out. auto.
Defined.

(** ** Integer-mixed and cross-format sums *)

(** X23: adding an integer n to a fixed-point value with [FADDI] raises its
    integer part ([FIX2INT]) by exactly n and leaves the fraction bits
    unchanged, and [FSUBI] of the same n restores the value, whenever n*2^q
    and the sum fit 32 bits. *)
Theorem FADDI_integer_part (x n qf : Z) :
  in_int32 x -> 0 <= qf <= 31 ->
  in_int32 (n * 2 ^ qf) -> in_int32 (x + n * 2 ^ qf) ->
  exists r,
    FADDI x n qf = Some r /\
    r = x + n * 2 ^ qf /\
    FIX2INT r qf = Some (x / 2 ^ qf + n) /\
    r mod 2 ^ qf = x mod 2 ^ qf /\
    FSUBI r n qf = Some x.
Proof.
  intros Hx Hq Hn Hs.
  pose proof (pow2_format qf Hq) as Hp.
  exists (x + n * 2 ^ qf).
  unfold FADDI, FSUBI. rewrite !shl_value by lia. cbn [bind].
  fold (int32 (n * 2 ^ qf)). rewrite (int32_small _ Hn), (int32_small _ Hs).
  split; [reflexivity|]. split; [reflexivity|].
  split; [|split].
  - rewrite FIX2INT_floor by trivial. rewrite Z.div_add by lia. reflexivity.
  - apply Z.mod_add. lia.
  - replace (x + n * 2 ^ qf - n * 2 ^ qf) with x by lia.
    now rewrite int32_small.
Qed.

Lemma FADDI_integer_part_witness :
  in_int32 (-98305) /\ 0 <= 16 <= 31 /\
  exists r,
    FADDI (-98305) 5 16 = Some r /\
    FIX2INT r 16 = Some (-98305 / 2 ^ 16 + 5) /\
    FSUBI r 5 16 = Some (-98305).
Proof.
  assert (Hx : in_int32 (-98305)) by (unfold in_int32; lia).
  assert (Hq : 0 <= 16 <= 31) by lia.
  split; [exact Hx|]. split; [exact Hq|].
  destruct (FADDI_integer_part (-98305) 5 16 Hx Hq) as (r & Hr & _ & Hi & _ & Hb).
  { vm_compute. split; discriminate. }
  { vm_compute. split; discriminate. }
  exists r. auto.
Defined.

(** X24: dividing by an integer with [FDIVI] undoes multiplying by it with
    [FMULI], whenever the product fits 32 bits and the integer is not 0. *)
Theorem FMULI_FDIVI_round_trip (x k : Z) :
  in_int32 x -> in_int32 k -> k <> 0 -> in_int32 (x * k) ->
  FDIVI (FMULI x k) k = Some x.
Proof.
  intros Hx Hk Hk0 Hxk. unfold FDIVI, FMULI, sdiv.
  rewrite (int32_small _ Hxk).
  destruct (Z.eqb_spec k 0) as [|_]; [contradiction|].
  destruct (Z.eqb_spec (x * k) (- 2 ^ (32 - 1))) as [Hmin|_];
    destruct (Z.eqb_spec k (-1)) as [Hm1|_]; cbn [andb];
    try (rewrite Z.quot_mul by lia; reflexivity).
  exfalso. subst k. change (- 2 ^ (32 - 1)) with (-2147483648) in Hmin.
  unfold in_int32 in Hx. lia.
Qed.

Lemma FMULI_FDIVI_round_trip_witness :
  in_int32 (-70000) /\ in_int32 (-3) /\ -3 <> 0 /\ in_int32 (-70000 * -3) /\
  FDIVI (FMULI (-70000) (-3)) (-3) = Some (-70000).
Proof.
  assert (Hx : in_int32 (-70000)) by (unfold in_int32; lia).
  assert (Hk : in_int32 (-3)) by (unfold in_int32; lia).
  assert (Hk0 : -3 <> 0) by lia.
  assert (Hxk : in_int32 (-70000 * -3)) by (unfold in_int32; lia).
  split; [exact Hx|]. split; [exact Hk|]. split; [exact Hk0|]. split; [exact Hxk|].
  exact (FMULI_FDIVI_round_trip (-70000) (-3) Hx Hk Hk0 Hxk).
Defined.

(** X25: [FADDG] into a format at least as fine as both operands' adds the
    operands scaled to that format, and [FSUBG] of the second operand gives
    back the first operand in the result format, whenever the scaled
    operands and their sum fit 32 bits. *)
Theorem FADDG_aligned_sum (x y q1 q2 q3 : Z) :
  in_int32 x -> in_int32 y ->
  0 <= q1 <= q3 -> 0 <= q2 <= q3 -> q3 <= 31 ->
  in_int32 (x * 2 ^ (q3 - q1)) -> in_int32 (y * 2 ^ (q3 - q2)) ->
  in_int32 (x * 2 ^ (q3 - q1) + y * 2 ^ (q3 - q2)) ->
  exists r,
    FADDG x y q1 q2 q3 = Some r /\
    r = x * 2 ^ (q3 - q1) + y * 2 ^ (q3 - q2) /\
    FSUBG r y q3 q2 q3 = Some (x * 2 ^ (q3 - q1)) /\
    FCONV x q1 q3 = Some (x * 2 ^ (q3 - q1)).
Proof.
  intros Hx Hy H1 H2 H3 Hsx Hsy Hsum.
  assert (Hconv : forall v qa, in_int32 v -> 0 <= qa <= q3 ->
                    in_int32 (v * 2 ^ (q3 - qa)) ->
                    FCONV v qa q3 = Some (v * 2 ^ (q3 - qa))).
  { intros v qa Hv Hqa Hfit.
    rewrite FCONV_value by range_side.
    destruct (Z.ltb_spec qa q3) as [Hlt|Hge].
    - now rewrite int32_small.
    - replace qa with q3 by lia. rewrite Z.sub_diag.
      change (2 ^ 0) with 1. now rewrite Z.div_1_r, Z.mul_1_r. }
  exists (x * 2 ^ (q3 - q1) + y * 2 ^ (q3 - q2)).
  unfold FADDG, FSUBG.
  rewrite (Hconv x q1), (Hconv y q2) by trivial. cbn [bind].
  rewrite (int32_small _ Hsum).
  rewrite (Hconv _ q3) by
    (trivial; try lia; rewrite Z.sub_diag; change (2 ^ 0) with 1;
     rewrite Z.mul_1_r; trivial).
  cbn [bind]. rewrite Z.sub_diag. change (2 ^ 0) with 1. rewrite Z.mul_1_r.
  replace (x * 2 ^ (q3 - q1) + y * 2 ^ (q3 - q2) - y * 2 ^ (q3 - q2))
    with (x * 2 ^ (q3 - q1)) by lia.
  rewrite (int32_small _ Hsx). auto.
Qed.

Lemma FADDG_aligned_sum_witness :
  in_int32 (-3) /\ in_int32 1000 /\
  exists r,
    FADDG (-3) 1000 0 8 16 = Some r /\
    r = -3 * 2 ^ (16 - 0) + 1000 * 2 ^ (16 - 8) /\
    FSUBG r 1000 16 8 16 = Some (-3 * 2 ^ (16 - 0)).
Proof.
  assert (Hx : in_int32 (-3)) by (unfold in_int32; lia).
  assert (Hy : in_int32 1000) by (unfold in_int32; lia).
  split; [exact Hx|]. split; [exact Hy|].
  destruct (FADDG_aligned_sum (-3) 1000 0 8 16 Hx Hy
              ltac:(lia) ltac:(lia) ltac:(lia))
    as (r & Hr & Hv & Hsub & _).
  { vm_compute. split; discriminate. }
  { vm_compute. split; discriminate. }
  { vm_compute. split; discriminate. }
  exists r. auto.
Defined.
